(** * C# package autocomplete: package queries, their cache and version order

    A shallow embedding of the completion and hover providers of the
    extension.  The repository holds two generations of them:
    [PackageCompletionProvider] and [PackageHoverProvider] (src/extension.ts),
    which know the [#:package] directive, and [DirectiveCompletionProvider]
    and [DirectiveHoverProvider], which also know [#:sdk] and [#:property].
    The members [compareVersions], [searchPackages], [getVersionCompletions]
    and the builder of package completion items have the same text in both
    completion providers and are embedded once.

    The first part is the embedding, the second part ("Properties") states
    and proves what the specification says about it. *)

From stdpp Require Import gmap strings list pretty sorting.
From Stdlib Require Import ZArith Ascii String Lia.

Local Open Scope string_scope.
Local Open Scope Z_scope.

(** ** Strings

    A source string is a sequence of 16-bit code units.  The directives,
    the tables and the patterns are written with code units below 256, and
    the embedding of the providers uses Rocq's [string], whose characters
    are these code units.  [Utf16] below covers lower-casing beyond them. *)

Module JsString.

Definition code (c : ascii) : Z := Z.of_N (N_of_ascii c).

(** [\d] *)
Definition is_digit (c : ascii) : bool :=
  (48 <=? code c) && (code c <=? 57).

(** [\w] is [[A-Za-z0-9_]] *)
Definition is_word (c : ascii) : bool :=
  is_digit c
  || ((65 <=? code c) && (code c <=? 90))
  || ((97 <=? code c) && (code c <=? 122))
  || (code c =? 95).

(** [\s] restricted to code units below 256: TAB, LF, VT, FF, CR, SP and
    NBSP. *)
Definition is_space (c : ascii) : bool :=
  ((9 <=? code c) && (code c <=? 13)) || (code c =? 32) || (code c =? 160).

(** Line terminators below 256, the characters [.] does not match. *)
Definition is_line_terminator (c : ascii) : bool :=
  (code c =? 10) || (code c =? 13).

(** The code units below 256 that [toLowerCase] changes: [A-Z] and the
    Latin-1 capitals U+00C0..U+00DE except the multiplication sign U+00D7;
    each becomes the code unit 32 up. *)
Definition is_upper (c : ascii) : bool :=
  ((65 <=? code c) && (code c <=? 90))
  || ((192 <=? code c) && (code c <=? 222) && negb (code c =? 215)).

Definition lower_char (c : ascii) : ascii :=
  if is_upper c then ascii_of_N (N_of_ascii c + 32) else c.

(** [String.prototype.toLowerCase] on a string of code units below 256,
    where it works code unit by code unit *)
Fixpoint toLowerCase (s : string) : string :=
  match s with
  | EmptyString => EmptyString
  | String c s' => String (lower_char c) (toLowerCase s')
  end.

(** [s.startsWith(p)] *)
Fixpoint startsWith (s p : string) : bool :=
  match p, s with
  | EmptyString, _ => true
  | String _ _, EmptyString => false
  | String d p', String c s' => if ascii_dec c d then startsWith s' p' else false
  end.

(** [s.includes(sub)] *)
Fixpoint includes (s sub : string) : bool :=
  startsWith s sub ||
  match s with
  | EmptyString => false
  | String _ s' => includes s' sub
  end.

(** [s.split(sep)] for a one-character separator; the accumulator holds
    the current segment. *)
Fixpoint split_go (sep : ascii) (s : string) (cur : string) : list string :=
  match s with
  | EmptyString => [String.rev cur]
  | String c s' =>
      if ascii_dec c sep then String.rev cur :: split_go sep s' EmptyString
      else split_go sep s' (String c cur)
  end.

Definition split (s : string) (sep : ascii) : list string :=
  split_go sep s EmptyString.

Fixpoint take (n : nat) (s : string) : string :=
  match n, s with
  | S n', String c s' => String c (take n' s')
  | _, _ => EmptyString
  end.

Fixpoint drop (n : nat) (s : string) : string :=
  match n, s with
  | S n', String _ s' => drop n' s'
  | _, _ => s
  end.

(** [s.substring(a, b)] on non-negative indices: the arguments are clamped
    to the length and swapped when [a > b]. *)
Definition substring (s : string) (a b : nat) : string :=
  let lo := Nat.min a b in
  let hi := Nat.max a b in
  take (hi - lo) (drop lo s).

(** [s.substr(0, n)] and [s.substring(0, n)] *)
Definition prefix_to (s : string) (n : nat) : string := substring s 0 n.

Fixpoint repeat_char (c : ascii) (n : nat) : string :=
  match n with
  | O => EmptyString
  | S n' => String c (repeat_char c n')
  end.

(** [s.padStart(n, c)] for a one-character filler. *)
Definition padStart (s : string) (n : nat) (c : ascii) : string :=
  repeat_char c (n - String.length s) +:+ s.

(** [a < b] on strings: code-unit-wise lexicographic order. *)
Definition lt (a b : string) : bool := String.ltb a b.

End JsString.

(** ** Lower-casing beyond code unit 255

    [toLowerCase] follows the Unicode case mappings, SpecialCasing.txt
    included, and these look at the whole string: capital sigma becomes
    final sigma [U+03C2] at the end of a word and small sigma [U+03C3]
    elsewhere.  The embedding covers the strings of code units below 256
    and the strings of letters of the Greek alphabet; what [toLowerCase]
    returns for any other string is the parameter [LowerOther]. *)

Module Utf16.

(** A string as the list of its code units. *)
Definition t : Type := list Z.

Fixpoint of_string (s : string) : t :=
  match s with
  | EmptyString => []
  | String c s' => JsString.code c :: of_string s'
  end.

Definition is_latin1 (u : Z) : bool := (0 <=? u) && (u <? 256).

Definition lower_latin1 (u : Z) : Z :=
  if ((65 <=? u) && (u <=? 90))
     || ((192 <=? u) && (u <=? 222) && negb (u =? 215))
  then u + 32 else u.

(** The capitals [U+0391..U+03A9] (U+03A2 is unassigned) and the small
    letters [U+03B1..U+03C9], final sigma among them. *)
Definition is_greek_capital (u : Z) : bool :=
  (913 <=? u) && (u <=? 937) && negb (u =? 930).

Definition is_greek_small (u : Z) : bool := (945 <=? u) && (u <=? 969).

Definition is_greek_letter (u : Z) : bool :=
  is_greek_capital u || is_greek_small u.

Definition CAPITAL_SIGMA : Z := 931.
Definition FINAL_SIGMA : Z := 962.
Definition SMALL_SIGMA : Z := 963.

(** Lower-casing a string of Greek letters.  Each of them is a cased
    letter and none is case-ignorable, so a capital sigma is in final
    position (the condition [Final_Sigma]) exactly when a letter precedes
    it and none follows.  [preceded] tells whether a letter precedes [s]. *)
Fixpoint lower_greek (preceded : bool) (s : t) : t :=
  match s with
  | [] => []
  | u :: s' =>
      (if u =? CAPITAL_SIGMA then
         if preceded && bool_decide (s' = []) then FINAL_SIGMA
         else SMALL_SIGMA
       else if is_greek_capital u then u + 32
       else u)
      :: lower_greek true s'
  end.

Section Lower.
Variable LowerOther : t → t.

(** [String.prototype.toLowerCase] *)
Definition toLowerCase (s : t) : t :=
  if forallb is_latin1 s then map lower_latin1 s
  else if forallb is_greek_letter s then lower_greek false s
  else LowerOther s.

(** [const cacheKey = query.toLowerCase()] of [searchPackages] *)
Definition cacheKey (query : t) : t := toLowerCase query.

End Lower.

(** The letters with two cases, capital beside small: [A-Z], the Latin-1
    letters [U+00C0..U+00D6] and [U+00D8..U+00DE], and the Greek letters
    alpha to rho and sigma to omega. *)
Definition capital_letters : list Z :=
  seqZ 65 26 ++ seqZ 192 23 ++ seqZ 216 7 ++ seqZ 913 17 ++ seqZ 931 7.

Definition small_letters : list Z :=
  seqZ 97 26 ++ seqZ 224 23 ++ seqZ 248 7 ++ seqZ 945 17 ++ seqZ 963 7.

Definition letter_cases : list (Z * Z) := zip capital_letters small_letters.

(** Two code units are the same letter up to case; two strings differ only
    in letter case. *)
Definition same_letter (u v : Z) : bool :=
  (u =? v)
  || bool_decide ((u, v) ∈ letter_cases)
  || bool_decide ((v, u) ∈ letter_cases).

Fixpoint differ_only_in_case (a b : t) : bool :=
  match a, b with
  | [], [] => true
  | u :: a', v :: b' => same_letter u v && differ_only_in_case a' b'
  | _, _ => false
  end.

End Utf16.

(** ** Numbers

    A source number is an IEEE-754 binary64 value.  A version segment
    without a hyphen converts to NaN, to an infinity or to an integer (a
    segment holds no dot, and a fraction such as [5e-1] needs a negative
    exponent), and the version list only compares versions without a
    hyphen.  So [number] holds exactly these values; an integer that a
    binary64 cannot hold is rounded (to nearest, ties to even) where the
    source rounds: when a string is converted and when two numbers are
    subtracted.  Negative zero is identified with zero: the source only
    tests such a value for falsiness. *)

Module JsNumber.

Inductive number : Type :=
| NaN
| Inf (negative : bool)
| Int (z : Z).

Global Instance number_eq_dec : EqDecision number.
Proof. solve_decision. Defined.

Definition precision : Z := 53.
(** Everything at or above [2^1024] is out of range. *)
Definition overflow_threshold : Z := 2 ^ 1024.

(** Round a positive integer to binary64. *)
Definition round_pos (n : Z) : number :=
  if n <? 2 ^ precision then Int n
  else
    let e := Z.log2 n - (precision - 1) in
    let q := n / 2 ^ e in
    let r := n mod 2 ^ e in
    let half := 2 ^ (e - 1) in
    let q' :=
      if r <? half then q
      else if half <? r then q + 1
      else if Z.even q then q else q + 1 in
    let v := q' * 2 ^ e in
    if overflow_threshold <=? v then Inf false else Int v.

Definition neg (x : number) : number :=
  match x with
  | NaN => NaN
  | Inf s => Inf (negb s)
  | Int z => Int (- z)
  end.

Definition round_double (z : Z) : number :=
  match z with
  | Z0 => Int 0
  | Zpos _ => round_pos z
  | Zneg _ => neg (round_pos (- z))
  end.

(** [x - y] *)
Definition sub (x y : number) : number :=
  match x, y with
  | NaN, _ | _, NaN => NaN
  | Inf s, Inf t => if Bool.eqb s t then NaN else Inf s
  | Inf s, Int _ => Inf s
  | Int _, Inf t => Inf (negb t)
  | Int a, Int b => round_double (a - b)
  end.

(** [x !== y] on two numbers *)
Definition strict_neq (x y : number) : bool :=
  match x, y with
  | NaN, _ | _, NaN => true
  | Inf s, Inf t => negb (Bool.eqb s t)
  | Int a, Int b => negb (a =? b)
  | _, _ => true
  end.

(** ToBoolean *)
Definition truthy (x : number) : bool :=
  match x with
  | NaN => false
  | Inf _ => true
  | Int z => negb (z =? 0)
  end.

(** [v || 0] where [v] is a number or [undefined] *)
Definition or_zero (v : option number) : number :=
  match v with
  | Some x => if truthy x then x else Int 0
  | None => Int 0
  end.

(** [x > 0] and [x < 0] *)
Definition is_positive (x : number) : bool :=
  match x with
  | NaN => false
  | Inf s => negb s
  | Int z => 0 <? z
  end.

Definition is_negative (x : number) : bool :=
  match x with
  | NaN => false
  | Inf s => s
  | Int z => z <? 0
  end.

(** The sign of a number as a comparison with zero; NaN has none. *)
Definition sign (x : number) : option comparison :=
  match x with
  | NaN => None
  | Inf s => Some (if s then Lt else Gt)
  | Int z => Some (z ?= 0)
  end.

(** The value of a run of decimal digits, most significant first. *)
Definition digit_value (c : ascii) : Z := JsString.code c - 48.

Fixpoint decimal_go (s : string) (acc : Z) : Z :=
  match s with
  | EmptyString => acc
  | String c s' => decimal_go s' (10 * acc + digit_value c)
  end.

Definition decimal_value (s : string) : Z := decimal_go s 0.

Fixpoint all_digits (s : string) : bool :=
  match s with
  | EmptyString => true
  | String c s' => JsString.is_digit c && all_digits s'
  end.

(** The order of the numbers other than NaN. *)
Definition num_compare (x y : number) : comparison :=
  match x, y with
  | Int a, Int b => a ?= b
  | Inf s, Inf t => if Bool.eqb s t then Eq else if s then Lt else Gt
  | Inf s, _ => if s then Lt else Gt
  | _, Inf t => if t then Gt else Lt
  | _, _ => Eq
  end.

Section Number.

(** [Number(s)] for the strings that are not a run of decimal digits
    (signs, exponents, radix prefixes, surrounding white space,
    [Infinity], and everything that converts to NaN).  The development
    does not depend on what the conversion answers there, as long as the
    answer is a [number]: it is one for every string without a hyphen. *)
Variable NumberOther : string → number.

(** [Number(s)]: the empty string converts to zero, a run of decimal
    digits to the nearest binary64. *)
Definition Number (s : string) : number :=
  if all_digits s then round_double (decimal_value s) else NumberOther s.

End Number.

End JsNumber.

(** ** Arrays *)

Module JsArray.

Section Sort.
Context {A : Type}.
(** The compare function handed to [sort]. *)
Variable comparefn : A → A → JsNumber.number.

(** [x] may stand in front of [y]: [comparefn(x, y) > 0] is false. *)
Definition may_precede (x y : A) : Prop :=
  JsNumber.is_positive (comparefn x y) = false.

(** [x] goes behind [y] exactly when [comparefn(x, y) > 0]. *)
Fixpoint insert (x : A) (l : list A) : list A :=
  match l with
  | [] => [x]
  | y :: l' =>
      if JsNumber.is_positive (comparefn x y) then y :: insert x l'
      else x :: l
  end.

(** [Array.prototype.sort(comparefn)].  The language fixes the result
    for a consistent compare function: the elements in ascending order,
    elements that compare equal in their original order.  Stable
    insertion computes that result. *)
Fixpoint sort (l : list A) : list A :=
  match l with
  | [] => []
  | x :: l' => insert x (sort l')
  end.
End Sort.

(** [l.slice(0, n)] *)
Definition slice0 {A} (l : list A) (n : nat) : list A := take n l.

End JsArray.

(** ** The version comparator *)

Module Versions.
Import JsNumber.

Section Compare.
Variable NumberOther : string → number.

(** [v.split(".").map(Number)] *)
Definition parts (v : string) : list number :=
  map (Number NumberOther) (JsString.split v ".").

(** The [for] loop of [compareVersions], [n] iterations from index [i]. *)
Fixpoint compare_loop (partsA partsB : list number) (n i : nat) : number :=
  match n with
  | O => Int 0
  | S n' =>
      let partA := or_zero (partsA !! i) in
      let partB := or_zero (partsB !! i) in
      if strict_neq partA partB then sub partA partB
      else compare_loop partsA partsB n' (S i)
  end.

Definition compareVersions (a b : string) : number :=
  let partsA := parts a in
  let partsB := parts b in
  compare_loop partsA partsB
    (Nat.max (List.length partsA) (List.length partsB)) 0.

(** [a] is not ordered before [b]: [compareVersions(a, b) >= 0]. *)
Definition not_before (a b : string) : Prop :=
  is_negative (compareVersions a b) = false.

(** [versions.filter(...).sort(...).slice(0, 10)] of
    [getVersionCompletions] *)
Definition filteredVersions (versions : list string)
    (versionPrefix : string) : list string :=
  JsArray.slice0
    (JsArray.sort (λ a b, compareVersions b a)
       (List.filter (λ v, negb (JsString.includes v "-")
                          && JsString.startsWith v versionPrefix)
                    versions))
    10.
End Compare.

(** The lexicographic order of two sequences of parts, absent parts read as
    zero: the sign of the loop's result. *)
Fixpoint lex (A B : list number) (n i : nat) : comparison :=
  match n with
  | O => Eq
  | S n' =>
      match num_compare (or_zero (A !! i)) (or_zero (B !! i)) with
      | Eq => lex A B n' (S i)
      | c => c
      end
  end.

(** The reference definition, after the specification's wording of the
    comparator: segments are compared from the most significant one, a
    segment absent in one operand counts as 0, and the first unequal pair
    decides. *)
Fixpoint compare_reference (xs ys : list Z) {struct xs} : comparison :=
  match xs with
  | [] =>
      (fix against_absent (ys : list Z) : comparison :=
         match ys with
         | [] => Eq
         | y :: ys' =>
             match 0 ?= y with Eq => against_absent ys' | c => c end
         end) ys
  | x :: xs' =>
      match ys with
      | [] => match x ?= 0 with Eq => compare_reference xs' [] | c => c end
      | y :: ys' =>
          match x ?= y with Eq => compare_reference xs' ys' | c => c end
      end
  end.

(** The integers a dotted version string denotes. *)
Definition segments (v : string) : list Z :=
  map decimal_value (JsString.split v ".").

(** A version string composed of dot-separated non-negative integers:
    every segment is a non-empty run of decimal digits. *)
Definition dotted_integers (v : string) : bool :=
  forallb (λ seg, all_digits seg && negb (String.eqb seg ""))
          (JsString.split v ".").

(** Every segment is at most [2^53], the range in which all integers are
    binary64 values. *)
Definition exact_segments (v : string) : bool :=
  forallb (λ z, z <=? 2 ^ precision) (segments v).

End Versions.

(** ** Data model

    The interfaces declare [id] and [version] as strings and the other
    properties as optional.  No response is checked against them, so at run
    time a property the interface requires can be missing as well; it then
    reads as [undefined].  The embedding keeps [id], the label of a
    completion item, a string and lets every other property be missing
    ([None]). *)

(** [interface NuGetPackage] *)
Module NuGetPackage.
Record t : Type := mk {
  id : string;
  version : option string;
  description : option string;
  totalDownloads : option Z
}.
End NuGetPackage.

(** An element of [NuGetSearchResult.data] *)
Module NuGetSearchItem.
Record t : Type := mk {
  id : string;
  version : option string;
  description : option string;
  totalDownloads : option Z;
  versions : option (list string)
}.

(** The item has the properties the interface requires. *)
Definition has_declared_shape (item : t) : bool :=
  bool_decide (is_Some (version item)).
End NuGetSearchItem.

(** A property inside a template literal: a missing one prints as
    [undefined]. *)
Definition template (value : option string) : string :=
  default "undefined" value.

(** ** The host: clock, network and editor *)

(** How an awaited [axios.get] settles: the promise is rejected (transport
    error, timeout, error status) or fulfilled with a response. *)
Inductive Settled (A : Type) : Type :=
| Rejected
| Fulfilled (response : A).
Arguments Rejected {A}.
Arguments Fulfilled {A} response.

(** [response.data] of a search or package-info response, as far as the
    source looks at it: [response.data.data] is an array of items, whatever
    properties they carry, or the body has another shape and reading the
    array raises a [TypeError]. *)
Inductive SearchBody : Type :=
| MalformedSearchBody
| SearchData (data : list NuGetSearchItem.t).

(** [response.data] of a version-index response: no object at all (reading
    [versions] raises), or an object whose [versions] is an array or
    missing. *)
Inductive IndexBody : Type :=
| MalformedIndexBody
| IndexData (versions : option (list string)).

(** The requests a provider sends. *)
Inductive Request : Type :=
| SearchRequest (q : string)
    (* GET azuresearch-usnc.nuget.org/query, params q, take=20,
       prerelease=false, timeout 5000 *)
| VersionIndexRequest (packageId : string)
    (* GET api.nuget.org/v3-flatcontainer/<packageId>/index.json,
       timeout 5000 *)
| PackageInfoRequest (packageId : string).
    (* GET azuresearch-usnc.nuget.org/query?q=packageid:<packageId>&take=1 *)

Global Instance Request_eq_dec : EqDecision Request.
Proof. solve_decision. Defined.

Definition request_text (r : Request) : string :=
  match r with
  | SearchRequest q => q
  | VersionIndexRequest packageId => packageId
  | PackageInfoRequest packageId => packageId
  end.

(** What the remote service answers to each request. *)
Record Network : Type := {
  search : string → Settled SearchBody;
  versionIndex : string → Settled IndexBody;
  packageInfo : string → Settled SearchBody
}.

(** The environment of one provider call: the value of [Date.now()] and the
    network. *)
Record Env : Type := {
  now : Z;
  net : Network
}.

(** The fields of a completion provider, and the requests sent so far. *)
Record State : Type := {
  packageCache : gmap string (list NuGetPackage.t);
  cacheExpiry : gmap string Z;
  requests : list Request
}.

Definition CACHE_DURATION : Z := 5 * 60 * 1000.

Definition initial : State :=
  {| packageCache := ∅; cacheExpiry := ∅; requests := [] |}.

(** ** Asynchronous code with exceptions

    A method body runs in an environment, passes the state along and ends
    normally with a value or abruptly with a thrown error.  One call runs to
    its end before the next one starts.  [console.error] has no effect on
    the state and is left out. *)

Inductive Outcome (A : Type) : Type :=
| Throw
| Normal (value : A).
Arguments Throw {A}.
Arguments Normal {A} value.

Definition Async (A : Type) : Type := Env → State → Outcome A * State.

Definition ret {A} (a : A) : Async A := λ _ st, (Normal a, st).

Definition throw {A} : Async A := λ _ st, (Throw, st).

Definition bind {A B} (m : Async A) (k : A → Async B) : Async B :=
  λ env st,
    match m env st with
    | (Normal a, st') => k a env st'
    | (Throw, st') => (Throw, st')
    end.

Notation "'let!' x ':=' m 'in' k" := (bind m (λ x, k))
  (at level 10, x name, m at level 100, k at level 200).

(** [try { body } catch (error) { handler }] *)
Definition try_catch {A} (body handler : Async A) : Async A :=
  λ env st,
    match body env st with
    | (Normal a, st') => (Normal a, st')
    | (Throw, st') => handler env st'
    end.

Definition Date_now : Async Z := λ env st, (Normal (now env), st).

Definition get_state : Async State := λ _ st, (Normal st, st).

Definition send (r : Request) : Async unit :=
  λ _ st,
    (Normal tt,
     {| packageCache := packageCache st; cacheExpiry := cacheExpiry st;
        requests := requests st ++ [r] |}).

(** [await] of a settled promise *)
Definition await {A} (p : Settled A) : Async A :=
  match p with
  | Rejected => throw
  | Fulfilled response => ret response
  end.

(** [this.packageCache.set(key, value)] and [this.cacheExpiry.set(key, value)] *)
Definition packageCache_set (key : string) (value : list NuGetPackage.t)
    : Async unit :=
  λ _ st,
    (Normal tt,
     {| packageCache := <[key := value]> (packageCache st);
        cacheExpiry := cacheExpiry st; requests := requests st |}).

Definition cacheExpiry_set (key : string) (value : Z) : Async unit :=
  λ _ st,
    (Normal tt,
     {| packageCache := packageCache st;
        cacheExpiry := <[key := value]> (cacheExpiry st);
        requests := requests st |}).

(** ** The directive patterns

    Each regular expression is embedded as the function that computes its
    match at the start of the input ([^]) and returns the capture groups.
    The patterns are written with blanks between their parts.  The
    quantifiers are greedy; except where [hover_property] says otherwise, the
    longest choice is the only one that can succeed, because what may follow
    a run of [\s], [\w] or [[^@\s]] is never a character of that run. *)

Module Pattern.
Import JsString.

(** The longest prefix of characters satisfying [p], and the rest. *)
Fixpoint span (p : ascii → bool) (s : string) : string * string :=
  match s with
  | EmptyString => (EmptyString, EmptyString)
  | String c s' =>
      if p c then let '(run, rest) := span p s' in (String c run, rest)
      else (EmptyString, s)
  end.

(** A literal at the start of the input. *)
Fixpoint literal (lit s : string) : option string :=
  match lit, s with
  | EmptyString, _ => Some s
  | String d lit', String c s' =>
      if ascii_dec c d then literal lit' s' else None
  | String _ _, EmptyString => None
  end.

(** [\s+] *)
Definition spaces1 (s : string) : option string :=
  match span is_space s with
  | (EmptyString, _) => None
  | (_, rest) => Some rest
  end.

(** [(?: \. \w+ )*]: [fuel] bounds the number of groups. *)
Fixpoint dotted_tail (fuel : nat) (s : string) : string * string :=
  match fuel, s with
  | S fuel', String "." s' =>
      match span is_word s' with
      | (EmptyString, _) => (EmptyString, s)
      | (word, rest) =>
          let '(more, rest') := dotted_tail fuel' rest in
          (String "." word +:+ more, rest')
      end
  | _, _ => (EmptyString, s)
  end.

(** [( \w+ (?: \. \w+ )* )] *)
Definition dotted_id (s : string) : option (string * string) :=
  match span is_word s with
  | (EmptyString, _) => None
  | (word, rest) =>
      let '(more, rest') := dotted_tail (String.length rest) rest in
      Some (word +:+ more, rest')
  end.

(** [( .* ) $]: the rest of the input, which must be free of line
    terminators. *)
Definition rest_of_line (s : string) : option string :=
  match span (λ c, negb (is_line_terminator c)) s with
  | (line, EmptyString) => Some line
  | _ => None
  end.

(** [^#:package \s+ ( [^@\s]* )]: the capture. *)
Definition package (s : string) : option string :=
  r ← literal "#:package" s;
  r ← spaces1 r;
  Some (fst (span (λ c, negb (bool_decide (c = "@"%char))
                        && negb (is_space c)) r)).

(** [^#:package \s+ ( \w+ (?: \. \w+ )* ) @ ( .* ) $]: the two
    captures. *)
Definition package_version (s : string) : option (string * string) :=
  r ← literal "#:package" s;
  r ← spaces1 r;
  '(packageId, r) ← dotted_id r;
  r ← literal "@" r;
  versionPrefix ← rest_of_line r;
  Some (packageId, versionPrefix).

(** [^#:sdk \s+ ( .* ) $] *)
Definition sdk (s : string) : option string :=
  r ← literal "#:sdk" s;
  r ← spaces1 r;
  rest_of_line r.

(** [^#:property \s+ ( \w* ) \s* ( .* ) $] *)
Definition property (s : string) : option (string * string) :=
  r ← literal "#:property" s;
  r ← spaces1 r;
  let '(name, r) := span is_word r in
  let '(_, r) := span is_space r in
  value ← rest_of_line r;
  Some (name, value).

(** [^#: ( \w* ) $] *)
Definition directive (s : string) : option string :=
  r ← literal "#:" s;
  match span is_word r with
  | (word, EmptyString) => Some word
  | _ => None
  end.

(** [^#:package \s+ ( \w+ (?: \. \w+ )* ) @? ( [\d\.]* )]: the two
    captures. *)
Definition hover_package (s : string) : option (string * string) :=
  r ← literal "#:package" s;
  r ← spaces1 r;
  '(packageId, r) ← dotted_id r;
  let r := default r (literal "@" r) in
  Some (packageId,
        fst (span (λ c, is_digit c || bool_decide (c = "."%char)) r)).

(** [^#:sdk \s+ ( [\w\.]+ )] *)
Definition hover_sdk (s : string) : option string :=
  r ← literal "#:sdk" s;
  r ← spaces1 r;
  match span (λ c, is_word c || bool_decide (c = "."%char)) r with
  | (EmptyString, _) => None
  | (sdkId, _) => Some sdkId
  end.

(** [( .+ )] after [\s+]: the white space gives back characters, last
    first, until one character that is no line terminator follows; the
    capture is the run of such characters from there.  [j] counts the
    white space characters still taken by [\s+]. *)
Fixpoint dot_plus_after (s : string) (j : nat) : option string :=
  match j with
  | O => None
  | S j' =>
      match span (λ c, negb (is_line_terminator c)) (drop j s) with
      | (EmptyString, _) => dot_plus_after s j'
      | (run, _) => Some run
      end
  end.

(** [^#:property \s+ ( \w+ ) \s+ ( .+ )] *)
Definition hover_property (s : string) : option (string * string) :=
  r ← literal "#:property" s;
  r ← spaces1 r;
  match span is_word r with
  | (EmptyString, _) => None
  | (propertyName, r) =>
      propertyValue ←
        dot_plus_after r (String.length (fst (span is_space r)));
      Some (propertyName, propertyValue)
  end.

End Pattern.

(** ** Editor items *)

Inductive CompletionItemKind : Type :=
| KindModule
| KindValue
| KindKeyword
| KindProperty.

(** A [vscode.CompletionItem]: the fields that decide what is inserted and
    how the item ranks.  [detail] and [documentation] are display text (built
    with the locale's number formatting) and are not part of the
    embedding. *)
Record CompletionItem : Type := {
  label : string;
  kind : CompletionItemKind;
  insertText : string;
  sortText : option string
}.

(** ** Members shared by both completion providers *)

Section Shared.
Variable NumberOther : string → JsNumber.number.

(** The object literal built from one search result. *)
Definition to_package (item : NuGetSearchItem.t) : NuGetPackage.t :=
  {| NuGetPackage.id := NuGetSearchItem.id item;
     NuGetPackage.version := NuGetSearchItem.version item;
     NuGetPackage.description := NuGetSearchItem.description item;
     NuGetPackage.totalDownloads := NuGetSearchItem.totalDownloads item |}.

(** [response.data.data] *)
Definition search_data (body : SearchBody) : Async (list NuGetSearchItem.t) :=
  match body with
  | MalformedSearchBody => throw
  | SearchData data => ret data
  end.

Definition searchPackages (query : string) : Async (list NuGetPackage.t) :=
  let cacheKey := JsString.toLowerCase query in
  let! now := Date_now in
  let! this := get_state in
  let fetch : Async (list NuGetPackage.t) :=
    try_catch
      (let! _ := send (SearchRequest query) in
       let! response := (λ env, await (search (net env) query) env) in
       let! data := search_data response in
       let packages := map to_package data in
       let! _ := packageCache_set cacheKey packages in
       let! _ := cacheExpiry_set cacheKey (now + CACHE_DURATION) in
       ret packages)
      (ret [])
  in
  match packageCache this !! cacheKey, cacheExpiry this !! cacheKey with
  | Some cached, Some expiry =>
      if now <? expiry then ret cached else fetch
  | _, _ => fetch
  end.

(** [createCompletionItem] / [createPackageCompletionItem].  A download
    count is a whole number; the difference and its decimal text are
    embedded exactly, as the source computes them for counts below
    [2^53]. *)
Definition createPackageCompletionItem (pkg : NuGetPackage.t)
    : CompletionItem :=
  {| label := NuGetPackage.id pkg;
     kind := KindModule;
     insertText :=
       NuGetPackage.id pkg +:+ "@" +:+ template (NuGetPackage.version pkg);
     sortText :=
       Some
         match NuGetPackage.totalDownloads pkg with
         | Some downloads =>
             if downloads =? 0 then "9999999999"
             else JsString.padStart (pretty (999999999 - downloads)) 10 "0"
         | None => "9999999999"
         end |}.

Definition version_item (version : string) : CompletionItem :=
  {| label := version;
     kind := KindValue;
     insertText := version;
     sortText := Some (JsString.padStart version 20 "0") |}.

(** [response.data.versions || []] *)
Definition index_versions (body : IndexBody) : Async (list string) :=
  match body with
  | MalformedIndexBody => throw
  | IndexData (Some versions) => ret versions
  | IndexData None => ret []
  end.

Definition getVersionCompletions (packageId versionPrefix : string)
    : Async (list CompletionItem) :=
  try_catch
    (let url_id := JsString.toLowerCase packageId in
     let! _ := send (VersionIndexRequest url_id) in
     let! response := (λ env, await (versionIndex (net env) url_id) env) in
     let! versions := index_versions response in
     let filteredVersions :=
       Versions.filteredVersions NumberOther versions versionPrefix in
     ret (map version_item filteredVersions))
    (ret []).

End Shared.

(** ** The completion provider of src/extension.ts *)

Module PackageCompletionProvider.

Definition provideCompletionItems (NumberOther : string → JsNumber.number)
    (lineText : string) (character : nat) : Async (list CompletionItem) :=
  let linePrefix := JsString.prefix_to lineText character in
  let packageMatch := Pattern.package linePrefix in
  let versionMatch := Pattern.package_version linePrefix in
  match packageMatch with
  | None => ret []
  | Some capture =>
      match versionMatch with
      | Some (packageId, versionPrefix) =>
          getVersionCompletions NumberOther packageId versionPrefix
      | None =>
          (* [packageMatch[1] || ""] *)
          let query := capture in
          try_catch
            (let! packages := searchPackages query in
             ret (map createPackageCompletionItem packages))
            (ret [])
      end
  end.

End PackageCompletionProvider.

(** ** The completion provider for all three directives *)

Module SdkInfo.
Record t : Type := mk {
  id : string;
  displayName : string;
  description : string;
  defaultTargetFramework : option string
}.
End SdkInfo.

Module PropertyInfo.
Record t : Type := mk {
  name : string;
  description : string;
  possibleValues : option (list string);
  defaultValue : option string
}.
End PropertyInfo.

Definition COMMON_SDKS : list SdkInfo.t :=
  [ SdkInfo.mk "Microsoft.NET.Sdk" "Console/Library SDK"
      "Default SDK for console applications and class libraries"
      (Some "net10.0");
    SdkInfo.mk "Microsoft.NET.Sdk.Web" "Web SDK"
      "SDK for ASP.NET Core applications, Web APIs, and Blazor apps" None;
    SdkInfo.mk "Microsoft.NET.Sdk.Worker" "Worker SDK"
      "SDK for background service applications and hosted services" None;
    SdkInfo.mk "Microsoft.NET.Sdk.WindowsDesktop" "Windows Desktop SDK"
      "SDK for WPF and Windows Forms applications" None;
    SdkInfo.mk "Microsoft.NET.Sdk.Razor" "Razor SDK"
      "SDK for Razor class libraries and components" None;
    SdkInfo.mk "Microsoft.NET.Sdk.BlazorWebAssembly" "Blazor WebAssembly SDK"
      "SDK for Blazor WebAssembly applications" None ].

Definition COMMON_PROPERTIES : list PropertyInfo.t :=
  [ PropertyInfo.mk "LangVersion" "C# language version to use"
      (Some ["latest"; "preview"; "12"; "11"; "10"; "9"; "8"; "7.3"; "7.2";
             "7.1"; "7"])
      (Some "latest");
    PropertyInfo.mk "TargetFramework" "Target framework for the application"
      (Some ["net10.0"; "net9.0"; "net8.0"; "net7.0"; "net6.0";
             "netstandard2.1"; "netstandard2.0"])
      (Some "net10.0");
    PropertyInfo.mk "Nullable" "Nullable reference types setting"
      (Some ["enable"; "disable"; "warnings"; "annotations"]) (Some "enable");
    PropertyInfo.mk "ImplicitUsings" "Enable implicit using statements"
      (Some ["enable"; "disable"]) (Some "enable");
    PropertyInfo.mk "TreatWarningsAsErrors" "Treat compiler warnings as errors"
      (Some ["true"; "false"]) (Some "false");
    PropertyInfo.mk "WarningLevel" "Compiler warning level"
      (Some ["0"; "1"; "2"; "3"; "4"; "5"]) (Some "4");
    PropertyInfo.mk "OutputType" "Type of output to generate"
      (Some ["Exe"; "Library"; "Module"; "Winexe"]) (Some "Exe");
    PropertyInfo.mk "PublishAot"
      "Enable ahead-of-time compilation for publishing"
      (Some ["true"; "false"]) (Some "false");
    PropertyInfo.mk "InvariantGlobalization"
      "Enable invariant globalization mode"
      (Some ["true"; "false"]) (Some "false");
    PropertyInfo.mk "EnablePreviewFeatures"
      "Enable preview language and runtime features"
      (Some ["true"; "false"]) (Some "false") ].

Module DirectiveCompletionProvider.

Definition getDirectiveCompletions (prefix : string) : list CompletionItem :=
  map (λ name,
         {| label := name; kind := KindKeyword;
            insertText := name +:+ " "; sortText := None |})
      (List.filter (λ name, JsString.startsWith name prefix)
         ["package"; "sdk"; "property"]).

Definition getSdkCompletions (query : string) : list CompletionItem :=
  map (λ sdk,
         {| label := SdkInfo.id sdk; kind := KindModule;
            insertText := SdkInfo.id sdk; sortText := None |})
      (List.filter
         (λ sdk, JsString.includes (JsString.toLowerCase (SdkInfo.id sdk))
                   (JsString.toLowerCase query))
         COMMON_SDKS).

Definition getPropertyNameCompletions (query : string)
    : list CompletionItem :=
  map (λ property,
         {| label := PropertyInfo.name property; kind := KindProperty;
            insertText := PropertyInfo.name property +:+ " ";
            sortText := None |})
      (List.filter
         (λ prop,
            JsString.includes (JsString.toLowerCase (PropertyInfo.name prop))
              (JsString.toLowerCase query))
         COMMON_PROPERTIES).

Definition getPropertyValueCompletions (propertyName valuePrefix : string)
    : list CompletionItem :=
  match List.find (λ p, String.eqb (PropertyInfo.name p) propertyName)
          COMMON_PROPERTIES with
  | Some {| PropertyInfo.possibleValues := Some possibleValues |} =>
      map (λ value,
             {| label := value; kind := KindValue; insertText := value;
                sortText := None |})
          (List.filter
             (λ value,
                JsString.startsWith (JsString.toLowerCase value)
                  (JsString.toLowerCase valuePrefix))
             possibleValues)
  | _ => []
  end.

Definition getPackageCompletions (query : string)
    : Async (list CompletionItem) :=
  if String.eqb query "" then ret []
  else
    try_catch
      (let! packages := searchPackages query in
       ret (map createPackageCompletionItem packages))
      (ret []).

Definition provideCompletionItems (NumberOther : string → JsNumber.number)
    (lineText : string) (character : nat) : Async (list CompletionItem) :=
  let linePrefix := JsString.prefix_to lineText character in
  let packageMatch := Pattern.package linePrefix in
  let packageVersionMatch := Pattern.package_version linePrefix in
  let sdkMatch := Pattern.sdk linePrefix in
  let propertyMatch := Pattern.property linePrefix in
  match packageMatch, sdkMatch, propertyMatch with
  | Some capture, _, _ =>
      match packageVersionMatch with
      | Some (packageId, versionPrefix) =>
          getVersionCompletions NumberOther packageId versionPrefix
      | None => getPackageCompletions capture
      end
  | None, Some query, _ => ret (getSdkCompletions query)
  | None, None, Some (propertyName, propertyValue) =>
      (* a capture that took part in the match is never [undefined] *)
      if negb (String.eqb propertyName "") then
        ret (getPropertyValueCompletions propertyName propertyValue)
      else ret (getPropertyNameCompletions propertyName)
  | None, None, None =>
      match Pattern.directive linePrefix with
      | Some prefix => ret (getDirectiveCompletions prefix)
      | None => ret []
      end
  end.

End DirectiveCompletionProvider.

(** ** Hover providers *)

(** The result of [document.getWordRangeAtPosition(position)]: character
    offsets in the hovered line. *)
Record Range : Type := {
  start_character : nat;
  end_character : nat
}.

(** What a hover shows.  The markdown text is assembled from exactly these
    data (and the locale's number formatting). *)
Inductive HoverContents : Type :=
| PackageMarkdown (packageData : NuGetSearchItem.t)
| SdkMarkdown (sdkInfo : SdkInfo.t)
| PropertyMarkdown (propertyInfo : PropertyInfo.t) (propertyValue : string).

Record Hover : Type := {
  contents : HoverContents;
  range : Range
}.

(** The request and the rendering shared by both package hovers:
    the [try] block. *)
Definition package_hover_request (packageId : string) (wordRange : Range)
    : Async (option Hover) :=
  try_catch
    (let! _ := send (PackageInfoRequest packageId) in
     let! response := (λ env, await (packageInfo (net env) packageId) env) in
     let! data := search_data response in
     match data with
     | [] => ret None
     | packageData :: _ =>
         ret (Some {| contents := PackageMarkdown packageData;
                      range := wordRange |})
     end)
    (ret None).

Module PackageHoverProvider.

Definition provideHover (lineText : string) (wordRange : option Range)
    : Async (option Hover) :=
  match Pattern.hover_package lineText with
  | None => ret None
  | Some (packageId, version) =>
      match wordRange with
      | None => ret None
      | Some wordRange =>
          if negb (JsString.includes
                     (JsString.substring lineText
                        (start_character wordRange) (end_character wordRange))
                     (default "" (head (JsString.split packageId "."))))
          then ret None
          else package_hover_request packageId wordRange
      end
  end.

End PackageHoverProvider.

Module DirectiveHoverProvider.

Definition getPackageHover (packageId version : string)
    (wordRange : option Range) : Async (option Hover) :=
  match wordRange with
  | None => ret None
  | Some wordRange => package_hover_request packageId wordRange
  end.

(** The tables of [findSdkInfo] and [findPropertyInfo] repeat
    [COMMON_SDKS] and [COMMON_PROPERTIES] entry by entry. *)
Definition findSdkInfo (sdkId : string) : option SdkInfo.t :=
  List.find (λ sdk, String.eqb (SdkInfo.id sdk) sdkId) COMMON_SDKS.

Definition findPropertyInfo (propertyName : string) : option PropertyInfo.t :=
  List.find (λ prop, String.eqb (PropertyInfo.name prop) propertyName)
    COMMON_PROPERTIES.

Definition getSdkHover (sdkId : string) (wordRange : option Range)
    : option Hover :=
  wordRange ← wordRange;
  sdkInfo ← findSdkInfo sdkId;
  Some {| contents := SdkMarkdown sdkInfo; range := wordRange |}.

Definition getPropertyHover (propertyName propertyValue : string)
    (wordRange : option Range) : option Hover :=
  wordRange ← wordRange;
  propertyInfo ← findPropertyInfo propertyName;
  Some {| contents := PropertyMarkdown propertyInfo propertyValue;
          range := wordRange |}.

Definition provideHover (lineText : string) (wordRange : option Range)
    : Async (option Hover) :=
  match Pattern.hover_package lineText with
  | Some (packageId, version) => getPackageHover packageId version wordRange
  | None =>
      match Pattern.hover_sdk lineText with
      | Some sdkId => ret (getSdkHover sdkId wordRange)
      | None =>
          match Pattern.hover_property lineText with
          | Some (propertyName, propertyValue) =>
              ret (getPropertyHover propertyName propertyValue wordRange)
          | None => ret None
          end
      end
  end.

End DirectiveHoverProvider.

(** ** Reading the cache

    The cache entry a call of [searchPackages] for [query] at time [now]
    answers from: both maps hold the lower-cased query and the stored expiry
    lies after [now]. *)

Definition lookup (this : State) (now : Z) (query : string)
    : option (list NuGetPackage.t) :=
  let cacheKey := JsString.toLowerCase query in
  match packageCache this !! cacheKey, cacheExpiry this !! cacheKey with
  | Some cached, Some expiry => if now <? expiry then Some cached else None
  | _, _ => None
  end.

(** The state after a request has been sent. *)
Definition sent (r : Request) (this : State) : State :=
  {| packageCache := packageCache this; cacheExpiry := cacheExpiry this;
     requests := requests this ++ [r] |}.

(** The state after a search for [query] at time [now] has been answered
    with [packages]. *)
Definition stored (query : string) (packages : list NuGetPackage.t) (now : Z)
    (this : State) : State :=
  {| packageCache :=
       <[JsString.toLowerCase query := packages]> (packageCache this);
     cacheExpiry :=
       <[JsString.toLowerCase query := now + CACHE_DURATION]> (cacheExpiry this);
     requests := requests this ++ [SearchRequest query] |}.

(** The search request for [query] fails: the promise is rejected, or the
    result array of the response cannot be read. *)
Definition search_fails (env : Env) (query : string) : Prop :=
  search (net env) query = Rejected
  ∨ search (net env) query = Fulfilled MalformedSearchBody.

(** Two characters are the same letter up to case, by the table of letters
    with two cases; two strings differ only in letter case. *)
Definition same_letter (c d : ascii) : bool :=
  Utf16.same_letter (JsString.code c) (JsString.code d).

Fixpoint differ_only_in_case (a b : string) : bool :=
  match a, b with
  | EmptyString, EmptyString => true
  | String c a', String d b' => same_letter c d && differ_only_in_case a' b'
  | _, _ => false
  end.

(** ** Sample hosts *)

Definition humanizer : NuGetSearchItem.t :=
  NuGetSearchItem.mk "Humanizer" (Some "2.14.1") None (Some 500000000) None.

(** An item without the version the interface requires, as in the body
    [{"data":[{"id":"Humanizer"}]}]. *)
Definition versionless : NuGetSearchItem.t :=
  NuGetSearchItem.mk "Humanizer" None None None None.

(** A network that settles every search and package-info request the same
    way and rejects version-index requests. *)
Definition network_answering (answer : Settled SearchBody) : Network :=
  {| search := λ _, answer;
     versionIndex := λ _, Rejected;
     packageInfo := λ _, answer |}.

Definition host_at (time : Z) (answer : Settled SearchBody) : Env :=
  {| now := time; net := network_answering answer |}.

(** The editor lists completion items in ascending order of [sortText]
    (the label where there is none), compared as strings: [a] is listed
    above [b]. *)
Definition ranks_above (a b : CompletionItem) : bool :=
  JsString.lt (default (label a) (sortText a)) (default (label b) (sortText b)).

Definition package_with (id version : string) (totalDownloads : Z)
    : NuGetPackage.t :=
  NuGetPackage.mk id (Some version) None (Some totalDownloads).

(** The line and word of a hover over the directive's name. *)
Definition json_line : string := "#:package System.Text.Json@8.0.1".
Definition word_package : Range :=
  {| start_character := 2; end_character := 9 |}.

(** The decimal digits of [k] in a field of width [w], leading zeros
    included. *)
Fixpoint fixed_digits (w : nat) (k : N) : string :=
  match w with
  | O => EmptyString
  | S w' =>
      fixed_digits w' (k / 10)
      +:+ String (pretty_N_char (k mod 10)) EmptyString
  end.

(** ** Notions used by the further properties *)

(** Every character of [s] satisfies [p]. *)
Fixpoint all_chars (p : ascii → bool) (s : string) : bool :=
  match s with
  | EmptyString => true
  | String c s' => p c && all_chars p s'
  end.

(** The characters the package-name capture [[^@\s]] admits. *)
Definition query_char (c : ascii) : bool :=
  negb (bool_decide (c = "@"%char)) && negb (JsString.is_space c).

(** The characters of a lower-cased dotted id: [[a-z0-9_.]]. *)
Definition lower_id_char (c : ascii) : bool :=
  (JsString.is_word c || bool_decide (c = "."%char))
  && negb (JsString.is_upper c).

(** The characters of a dotted id: [[A-Za-z0-9_.]]. *)
Definition id_char (c : ascii) : bool :=
  JsString.is_word c || bool_decide (c = "."%char).

(** What the patterns let through into a request: a search query without
    [@] and white space, a version-index id that is a non-empty run of
    [[a-z0-9_.]], a package-info id that is a non-empty run of
    [[A-Za-z0-9_.]]. *)
Definition request_well_formed (r : Request) : bool :=
  match r with
  | SearchRequest q => all_chars query_char q
  | VersionIndexRequest packageId =>
      negb (String.eqb packageId "") && all_chars lower_id_char packageId
  | PackageInfoRequest packageId =>
      negb (String.eqb packageId "") && all_chars id_char packageId
  end.

(** The characters [.] matches: everything but a line terminator. *)
Definition line_char (c : ascii) : bool :=
  negb (JsString.is_line_terminator c).

(** [s] does not begin with white space. *)
Definition no_leading_space (s : string) : bool :=
  match s with
  | EmptyString => true
  | String c _ => negb (JsString.is_space c)
  end.

(** * Properties *)

(** ** Rounding and subtraction *)

Module JsNumberFacts.
Import JsNumber.

Lemma neg_involutive x : neg (neg x) = x.
Proof.
  destruct x as [|s|z]; simpl; [done| by rewrite Bool.negb_involutive |].
  by rewrite Z.opp_involutive.
Qed.

Lemma round_double_opp z : round_double (- z) = neg (round_double z).
Proof.
  destruct z as [|p|p]; simpl; [done|done|].
  by rewrite neg_involutive.
Qed.

Lemma sign_neg x : sign (neg x) = CompOpp <$> sign x.
Proof.
  destruct x as [|[]|z]; simpl; try done.
  f_equal. destruct z; done.
Qed.

Lemma round_pos_sign n : 0 < n → sign (round_pos n) = Some Gt.
Proof.
  intros Hn. unfold round_pos.
  destruct (n <? 2 ^ precision) eqn:Hsmall.
  { simpl. f_equal. by apply Z.compare_gt_iff. }
  apply Z.ltb_ge in Hsmall.
  set (e := Z.log2 n - (precision - 1)).
  assert (He : 1 ≤ e).
  { assert (Z.log2 (2 ^ precision) ≤ Z.log2 n) by by apply Z.log2_le_mono.
    rewrite Z.log2_pow2 in H by done. unfold e, precision in *. lia. }
  assert (Hpow : 0 < 2 ^ e) by (apply Z.pow_pos_nonneg; lia).
  assert (Hq : 1 ≤ n / 2 ^ e).
  { apply Z.div_le_lower_bound; [done|].
    destruct (Z.log2_spec n Hn) as [Hlo _].
    assert (2 ^ e ≤ 2 ^ Z.log2 n); [|lia].
    apply Z.pow_le_mono_r; unfold e, precision; lia. }
  set (q' := if n mod 2 ^ e <? 2 ^ (e - 1) then n / 2 ^ e
             else if 2 ^ (e - 1) <? n mod 2 ^ e then n / 2 ^ e + 1
             else if Z.even (n / 2 ^ e) then n / 2 ^ e else n / 2 ^ e + 1).
  assert (Hq' : 1 ≤ q') by (unfold q'; repeat case_match; lia).
  destruct (overflow_threshold <=? q' * 2 ^ e); simpl; [done|].
  f_equal. apply Z.compare_gt_iff. nia.
Qed.

Lemma round_double_sign z : sign (round_double z) = Some (z ?= 0).
Proof.
  destruct z as [|p|p]; simpl round_double; [done| |].
  - by rewrite round_pos_sign.
  - rewrite sign_neg, round_pos_sign; done.
Qed.

Lemma round_double_never_nan z : round_double z ≠ NaN.
Proof.
  intros H. pose proof (round_double_sign z) as Hs. by rewrite H in Hs.
Qed.

(** Integers of magnitude at most [2^53] are binary64 values. *)
Lemma round_double_exact z :
  - 2 ^ precision ≤ z ≤ 2 ^ precision → round_double z = Int z.
Proof.
  assert (Hpos : ∀ n, 0 < n ≤ 2 ^ precision → round_pos n = Int n).
  { intros n [Hn Hle]. unfold round_pos.
    destruct (n <? 2 ^ precision) eqn:Hsmall; [done|].
    apply Z.ltb_ge in Hsmall. assert (n = 2 ^ precision) as -> by lia.
    by vm_compute. }
  intros [Hlo Hhi]. destruct z as [|p|p]; simpl round_double; [done| |].
  - apply Hpos. lia.
  - rewrite Hpos; [done|]. lia.
Qed.

Lemma or_zero_not_nan v : or_zero v ≠ NaN.
Proof. destruct v as [[| |z]|]; simpl; try done. by case_match. Qed.

Lemma sub_antisym x y : sub x y = neg (sub y x).
Proof.
  destruct x as [|s|a], y as [|t|b]; cbn [sub neg]; try done.
  - destruct s, t; done.
  - by rewrite Bool.negb_involutive.
  - rewrite <- round_double_opp. f_equal. lia.
Qed.

Lemma strict_neq_sym x y : strict_neq x y = strict_neq y x.
Proof.
  destruct x as [|s|a], y as [|t|b]; simpl; try done.
  - by destruct s, t.
  - by rewrite Z.eqb_sym.
Qed.

Lemma strict_neq_false x y : strict_neq x y = false → x = y ∧ x ≠ NaN.
Proof.
  destruct x as [|s|a], y as [|t|b]; simpl; try done.
  - destruct s, t; done.
  - intros H%negb_false_iff%Z.eqb_eq. by subst.
Qed.

(** The difference of two unequal numbers has the sign of their order. *)
Lemma sub_sign x y :
  x ≠ NaN → y ≠ NaN → strict_neq x y = true →
  sign (sub x y) = Some (num_compare x y) ∧ num_compare x y ≠ Eq.
Proof.
  destruct x as [|s|a], y as [|t|b]; cbn [sub strict_neq num_compare sign];
    try done.
  - destruct s, t; done.
  - destruct s; done.
  - destruct t; done.
  - intros _ _ H%negb_true_iff%Z.eqb_neq.
    rewrite round_double_sign. split.
    + f_equal. destruct (Z.compare_spec a b), (Z.compare_spec (a - b) 0);
        try done; lia.
    + intros ?%Z.compare_eq. done.
Qed.

End JsNumberFacts.

(** ** The comparator loop *)

Module VersionsFacts.
Import JsNumber JsNumberFacts Versions.

Lemma lookup_succ_tail {A} (l : list A) (i : nat) : l !! S i = tail l !! i.
Proof. destruct l; [by rewrite lookup_nil|done]. Qed.

Lemma or_zero_int (l : list Z) (i : nat) :
  or_zero (map Int l !! i) = Int (nth i l 0).
Proof.
  revert i. induction l as [|z l IH]; intros [|i]; simpl; try done.
  destruct (z =? 0) eqn:Hz; simpl; [|done].
  apply Z.eqb_eq in Hz. by subst.
Qed.

Lemma compare_loop_shift A B n i :
  compare_loop A B n (S i) = compare_loop (tail A) (tail B) n i.
Proof.
  revert i. induction n as [|n IH]; intros i; simpl; [done|].
  rewrite !lookup_succ_tail, IH. done.
Qed.

Lemma compare_loop_antisym A B n i :
  compare_loop A B n i = neg (compare_loop B A n i).
Proof.
  revert i. induction n as [|n IH]; intros i; simpl; [done|].
  rewrite (strict_neq_sym (or_zero (B !! i))).
  case_match; [apply sub_antisym|apply IH].
Qed.

Lemma compare_loop_refl A n i : compare_loop A A n i = Int 0.
Proof.
  revert i. induction n as [|n IH]; intros i; simpl; [done|].
  destruct (strict_neq _ _) eqn:Hne; [|apply IH].
  pose proof (or_zero_not_nan (A !! i)) as Hnan.
  destruct (or_zero (A !! i)) as [|s|z]; simpl in Hne; [done| |].
  - by destruct s.
  - by rewrite Z.eqb_refl in Hne.
Qed.

Lemma num_compare_refl x : num_compare x x = Eq.
Proof. destruct x as [|[]|z]; simpl; try done. apply Z.compare_refl. Qed.

Lemma compare_loop_sign A B n i :
  sign (compare_loop A B n i) = Some (lex A B n i).
Proof.
  revert i. induction n as [|n IH]; intros i; simpl; [done|].
  destruct (strict_neq _ _) eqn:Hne.
  - apply sub_sign in Hne as [-> Hc]; auto using or_zero_not_nan.
    by destruct (num_compare _ _).
  - apply strict_neq_false in Hne as [-> _].
    rewrite num_compare_refl. apply IH.
Qed.

Lemma compare_loop_never_nan A B n i : compare_loop A B n i ≠ NaN.
Proof.
  intros H. pose proof (compare_loop_sign A B n i) as Hs.
  by rewrite H in Hs.
Qed.

(** Iterations past the end of both arrays compare zero with zero. *)
Lemma lex_more A B n k i :
  (Nat.max (List.length A) (List.length B) ≤ i + n)%nat →
  lex A B (n + k) i = lex A B n i.
Proof.
  revert i. induction n as [|n IH]; intros i Hlen; simpl.
  - revert i Hlen. induction k as [|k IHk]; intros i Hlen; simpl; [done|].
    rewrite !lookup_ge_None_2 by lia. simpl. apply IHk. lia.
  - rewrite IH by lia. done.
Qed.

Lemma num_compare_eq x y :
  x ≠ NaN → y ≠ NaN → num_compare x y = Eq → x = y.
Proof.
  destruct x as [|s|a], y as [|t|b]; simpl; try done.
  - destruct s, t; done.
  - by destruct s.
  - by destruct t.
  - by intros _ _ ->%Z.compare_eq.
Qed.

Lemma num_compare_not_lt_trans x y z :
  x ≠ NaN → y ≠ NaN → z ≠ NaN →
  num_compare x y = Gt → num_compare y z = Gt → num_compare x z = Gt.
Proof.
  destruct x as [|s|a], y as [|t|b], z as [|u|c]; simpl; try done;
    try (by destruct s); try (by destruct t); try (by destruct u);
    try (by destruct s, t); try (by destruct t, u); try (by destruct s, u);
    try (by destruct s, t, u).
  intros _ _ _ ?%Z.compare_gt_iff ?%Z.compare_gt_iff.
  apply Z.compare_gt_iff. lia.
Qed.

Lemma lex_not_lt_trans A B C n i :
  lex A B n i ≠ Lt → lex B C n i ≠ Lt → lex A C n i ≠ Lt.
Proof.
  revert i. induction n as [|n IH]; intros i; simpl; [done|].
  pose proof (or_zero_not_nan (A !! i)) as Ha.
  pose proof (or_zero_not_nan (B !! i)) as Hb.
  pose proof (or_zero_not_nan (C !! i)) as Hc.
  destruct (num_compare (or_zero (A !! i)) (or_zero (B !! i))) eqn:Hab;
    [|done|].
  - apply num_compare_eq in Hab as ->; [|done..].
    destruct (num_compare (or_zero (B !! i)) (or_zero (C !! i))); auto.
  - intros _.
    destruct (num_compare (or_zero (B !! i)) (or_zero (C !! i))) eqn:Hbc;
      [|done|].
    + apply num_compare_eq in Hbc as <-; [|done..]. by rewrite Hab.
    + by rewrite (num_compare_not_lt_trans _ _ _ Ha Hb Hc Hab Hbc).
Qed.

Lemma decimal_go_nonneg s acc :
  all_digits s = true → 0 ≤ acc → 0 ≤ decimal_go s acc.
Proof.
  revert acc. induction s as [|c s IH]; intros acc; simpl; [done|].
  intros [Hc Hs]%andb_true_iff Hacc. apply IH; [done|].
  unfold digit_value. unfold JsString.is_digit in Hc. lia.
Qed.

(** Reading the loop against the reference on exact integer parts. *)
Lemma lex_int_reference xs ys n :
  (Nat.max (List.length xs) (List.length ys) ≤ n)%nat →
  lex (map Int xs) (map Int ys) n 0 = compare_reference xs ys.
Proof.
  assert (Hshift : ∀ A B m i, lex A B m (S i) = lex (tail A) (tail B) m i).
  { intros A B m. induction m as [|m IH]; intros i; simpl; [done|].
    by rewrite !lookup_succ_tail, IH. }
  revert ys n. induction xs as [|x xs IH]; intros ys n Hn.
  - revert n Hn. induction ys as [|y ys IHy]; intros n Hn.
    + clear Hn. generalize 0%nat. induction n as [|n IHn]; intros i; [done|].
      simpl. apply IHn.
    + destruct n as [|n]; [simpl in Hn; lia|].
      cbn [lex]. rewrite !or_zero_int. cbn [nth num_compare].
      rewrite Hshift. cbn [tail map compare_reference].
      destruct (0 ?= y); [|done..].
      apply (IHy n). simpl in *. lia.
  - destruct n as [|n]; [simpl in Hn; lia|].
    cbn [lex]. rewrite !or_zero_int, Hshift.
    destruct ys as [|y ys]; cbn [nth num_compare tail map compare_reference].
    + destruct (x ?= 0); [|done..]. apply (IH [] n). simpl in *. lia.
    + destruct (x ?= y); [|done..]. apply (IH ys n). simpl in *. lia.
Qed.

Section Compare.
Variable other : string → number.

Lemma compareVersions_sign a b :
  sign (compareVersions other a b)
  = Some (lex (parts other a) (parts other b)
            (Nat.max (List.length (parts other a))
                     (List.length (parts other b))) 0).
Proof. apply compare_loop_sign. Qed.

Lemma compareVersions_antisym a b :
  compareVersions other a b = neg (compareVersions other b a).
Proof.
  unfold compareVersions. rewrite (Nat.max_comm (List.length (parts other b))).
  apply compare_loop_antisym.
Qed.

Lemma parts_exact v :
  dotted_integers v = true → exact_segments v = true →
  parts other v = map Int (segments v).
Proof.
  unfold dotted_integers, exact_segments, parts, segments.
  induction (JsString.split v ".") as [|seg l IH]; simpl; [done|].
  intros [[Hd _]%andb_true_iff Hl]%andb_true_iff
         [Hz%Z.leb_le Hzs]%andb_true_iff.
  rewrite IH by done. f_equal.
  unfold Number. rewrite Hd. apply round_double_exact.
  pose proof (decimal_go_nonneg seg 0 Hd). unfold decimal_value in *.
  split; [|done]. unfold precision. lia.
Qed.

Lemma is_negative_sign x : is_negative x = true ↔ sign x = Some Lt.
Proof.
  destruct x as [|[]|z]; simpl; try done.
  rewrite Z.ltb_lt, <- Z.compare_lt_iff. split; [by intros ->|congruence].
Qed.

Lemma is_positive_sign x : is_positive x = true ↔ sign x = Some Gt.
Proof.
  destruct x as [|[]|z]; simpl; try done.
  rewrite Z.ltb_lt, <- Z.compare_gt_iff. split; [by intros ->|congruence].
Qed.

Lemma is_positive_neg x : is_positive (neg x) = is_negative x.
Proof.
  destruct x as [|[]|z]; simpl; try done.
  apply eq_true_iff_eq. rewrite !Z.ltb_lt. lia.
Qed.

Lemma not_before_lex a b N :
  (Nat.max (List.length (parts other a))
           (List.length (parts other b)) ≤ N)%nat →
  not_before other a b ↔ lex (parts other a) (parts other b) N 0 ≠ Lt.
Proof.
  intros HN. unfold not_before.
  rewrite <- not_true_iff_false, is_negative_sign, compareVersions_sign.
  set (n := Nat.max _ _) in *.
  replace N with (n + (N - n))%nat by lia.
  rewrite lex_more by lia. split; congruence.
Qed.

Lemma not_before_trans a b c :
  not_before other a b → not_before other b c → not_before other a c.
Proof.
  set (N := Nat.max (List.length (parts other a))
              (Nat.max (List.length (parts other b))
                       (List.length (parts other c)))).
  rewrite (not_before_lex a b N), (not_before_lex b c N),
    (not_before_lex a c N) by (unfold N; lia).
  apply lex_not_lt_trans.
Qed.

Lemma not_before_total a b : not_before other a b ∨ not_before other b a.
Proof.
  unfold not_before. rewrite (compareVersions_antisym b a).
  destruct (compareVersions other a b) as [|[]|z]; simpl; auto.
  destruct (Z.ltb_spec z 0), (Z.ltb_spec (- z) 0); auto; lia.
Qed.
End Compare.

End VersionsFacts.

(** ** Sorting with a consistent compare function *)

Module JsArrayFacts.
Import JsNumber JsArray.

Lemma StronglySorted_weaken {A} (R R' : A → A → Prop) l :
  (∀ x y, R x y → R' x y) → StronglySorted R l → StronglySorted R' l.
Proof.
  intros HR. induction 1 as [|x l Hl IH Hx]; constructor; [done|].
  eapply Forall_impl; [exact Hx|]. auto.
Qed.

Section Sort.
Context {A : Type}.
Variable comparefn : A → A → number.

Hypothesis comparefn_total :
  ∀ x y, is_positive (comparefn x y) = true → may_precede comparefn y x.
Hypothesis comparefn_trans :
  ∀ x y z,
    may_precede comparefn x y → may_precede comparefn y z →
    may_precede comparefn x z.

Lemma insert_Permutation x l : insert comparefn x l ≡ₚ x :: l.
Proof.
  induction l as [|y l IH]; simpl; [done|].
  case_match; [|done]. rewrite IH. apply Permutation_swap.
Qed.

Lemma sort_Permutation l : sort comparefn l ≡ₚ l.
Proof.
  induction l as [|x l IH]; simpl; [done|].
  by rewrite insert_Permutation, IH.
Qed.

Lemma insert_StronglySorted x l :
  StronglySorted (may_precede comparefn) l →
  StronglySorted (may_precede comparefn) (insert comparefn x l).
Proof.
  induction 1 as [|y l Hl IH Hy]; simpl.
  - repeat constructor.
  - destruct (is_positive (comparefn x y)) eqn:Hxy.
    + constructor; [done|].
      rewrite insert_Permutation. constructor; [|done].
      by apply comparefn_total.
    + constructor; [by constructor|].
      constructor; [done|].
      eapply Forall_impl; [exact Hy|]. intros z Hz.
      by apply (comparefn_trans x y z).
Qed.

Lemma sort_StronglySorted l :
  StronglySorted (may_precede comparefn) (sort comparefn l).
Proof.
  induction l as [|x l IH]; simpl; [constructor|].
  by apply insert_StronglySorted.
Qed.
End Sort.

End JsArrayFacts.

(** ** The version comparator and the version pipeline *)

Section VersionClaims.
Import JsNumber JsNumberFacts Versions VersionsFacts.
Variable other : string → number.

Lemma descending_consistent :
  (∀ x y, is_positive (compareVersions other y x) = true →
          is_positive (compareVersions other x y) = false)
  ∧ (∀ x y z, is_positive (compareVersions other y x) = false →
              is_positive (compareVersions other z y) = false →
              is_positive (compareVersions other z x) = false).
Proof.
  assert (Hnb : ∀ x y, is_positive (compareVersions other y x) = false
                       ↔ not_before other x y).
  { intros x y. unfold not_before.
    by rewrite (compareVersions_antisym other y x), is_positive_neg. }
  split.
  - intros x y Hyx. apply Hnb.
    destruct (not_before_total other y x) as [H|H]; [done|].
    apply Hnb in H. congruence.
  - intros x y z. rewrite !Hnb. apply not_before_trans.
Qed.

(** C3: out of any version list the pipeline keeps exactly the versions
    without a hyphen that start with the typed prefix, in descending order
    of the comparator, and returns the first ten of them at most: the
    result followed by what [slice] cut off is a rearrangement of the kept
    versions in which no version is ordered before a later one;
    [["1.0.0"; "1.0.0-beta"; "1.1.0"; "2.0.0"]] with prefix ["1"] gives
    [["1.1.0"; "1.0.0"]].  [getVersionCompletions] offers one item per
    version of that result, in that order, when the version index of the
    package answers with the version list. *)
Theorem filteredVersions_filters_sorts_truncates
    (versions : list string) (versionPrefix : string) :
  let result := filteredVersions other versions versionPrefix in
  (∃ cut : list string,
      result ++ cut ≡ₚ
        List.filter (λ v, negb (JsString.includes v "-")
                          && JsString.startsWith v versionPrefix) versions
      ∧ StronglySorted (not_before other) (result ++ cut)
      ∧ (cut = [] ∨ List.length result = 10%nat))
  ∧ (List.length result ≤ 10)%nat
  ∧ (∀ v, v ∈ result →
          v ∈ versions ∧ JsString.includes v "-" = false
          ∧ JsString.startsWith v versionPrefix = true)
  ∧ filteredVersions other ["1.0.0"; "1.0.0-beta"; "1.1.0"; "2.0.0"] "1"
    = ["1.1.0"; "1.0.0"]
  ∧ (∀ packageId env this,
       versionIndex (net env) (JsString.toLowerCase packageId)
       = Fulfilled (IndexData (Some versions)) →
       (getVersionCompletions other packageId versionPrefix env this).1
       = Normal (map version_item result)).
Proof.
  intros result. unfold filteredVersions, JsArray.slice0 in result.
  set (kept := List.filter _ versions) in *.
  set (sorted := JsArray.sort (λ a b, compareVersions other b a) kept) in *.
  destruct descending_consistent as [Htotal Htrans].
  assert (Hperm : sorted ≡ₚ kept) by apply JsArrayFacts.sort_Permutation.
  assert (Hsorted : StronglySorted (not_before other) sorted).
  { eapply JsArrayFacts.StronglySorted_weaken;
      [|apply (JsArrayFacts.sort_StronglySorted
                 (λ a b, compareVersions other b a)); done].
    intros x y Hxy. unfold not_before.
    by rewrite <- is_positive_neg, <- compareVersions_antisym. }
  split; [|split; [|split; [|split]]].
  - exists (drop 10 sorted). subst result. rewrite take_drop.
    split; [done|]. split; [done|].
    destruct (decide (List.length sorted ≤ 10)%nat).
    + left. by apply drop_ge.
    + right. rewrite length_take. lia.
  - subst result. rewrite length_take. lia.
  - intros v Hv. subst result.
    apply elem_of_take in Hv as (i & Hv & _).
    apply list_elem_of_lookup_2 in Hv. rewrite Hperm in Hv.
    apply list_elem_of_In, filter_In in Hv as [Hin Hkeep].
    apply andb_true_iff in Hkeep as [Hh%negb_true_iff Hp].
    by rewrite list_elem_of_In.
  - vm_compute. done.
  - intros packageId env this Hindex.
    unfold getVersionCompletions, try_catch, bind, send, await, ret,
      index_versions. simpl. by rewrite Hindex.
Qed.

(** C5: [compareVersions(a, b) == -compareVersions(b, a)] and
    [compareVersions(a, a) == 0]; the result is never NaN, so the two
    sides are equal numbers.  This holds for all strings, in particular for
    those composed of dot-separated non-negative integers. *)
Theorem compareVersions_antisymmetric (a b : string) :
  compareVersions other a b = neg (compareVersions other b a)
  ∧ compareVersions other a b ≠ NaN
  ∧ compareVersions other a a = Int 0.
Proof.
  split; [apply compareVersions_antisym|].
  split; [apply compare_loop_never_nan|apply compare_loop_refl].
Qed.

(** C4 (amended): for version strings composed of dot-separated
    non-negative integers none of whose segments exceeds [2^53], the sign
    of [compareVersions] is the reference comparison of the two integer
    sequences: segment by segment from the most significant, an absent
    segment counting as 0, the first unequal pair deciding; and
    [compareVersions("2.1", "2.1.0")] is [0],
    [compareVersions("1.2.3", "1.10.0")] is negative. *)
Theorem compareVersions_reference_exact (a b : string) :
  dotted_integers a = true → dotted_integers b = true →
  exact_segments a = true → exact_segments b = true →
  sign (compareVersions other a b)
  = Some (compare_reference (segments a) (segments b))
  ∧ compareVersions other "2.1" "2.1.0" = Int 0
  ∧ is_negative (compareVersions other "1.2.3" "1.10.0") = true.
Proof.
  intros Ha Hb Hea Heb. split; [|by vm_compute].
  rewrite compareVersions_sign, !parts_exact by done.
  f_equal. apply lex_int_reference. rewrite !length_map. done.
Qed.

End VersionClaims.

Lemma compareVersions_reference_exact_witness :
  JsNumber.sign (Versions.compareVersions (λ _, JsNumber.NaN) "1.2.3" "1.10.0")
  = Some Lt.
Proof.
  exact (proj1 (compareVersions_reference_exact (λ _, JsNumber.NaN)
                  "1.2.3" "1.10.0" eq_refl eq_refl eq_refl eq_refl)).
Defined.

(** Two integers above [2^53] that convert to the same binary64: the
    comparator answers 0 where the reference says greater. *)
Lemma compareVersions_reference_counterexample :
  Versions.dotted_integers "9007199254740993" = true
  ∧ Versions.dotted_integers "9007199254740992" = true
  ∧ Versions.compare_reference (Versions.segments "9007199254740993")
      (Versions.segments "9007199254740992") = Gt
  ∧ Versions.compareVersions (λ _, JsNumber.NaN)
      "9007199254740993" "9007199254740992" = JsNumber.Int 0.
Proof. by vm_compute. Qed.

(** ** The package query cache *)

Section Cache.
Implicit Types (query : string) (env : Env) (this : State).

Lemma searchPackages_hit query env this cached :
  lookup this (now env) query = Some cached →
  searchPackages query env this = (Normal cached, this).
Proof.
  unfold lookup, searchPackages, bind, Date_now, get_state. simpl.
  destruct (packageCache this !! _) as [p|]; [|done].
  destruct (cacheExpiry this !! _) as [e|]; [|done].
  destruct (now env <? e); [|done]. by intros [= ->].
Qed.

Lemma searchPackages_fetch query env this :
  lookup this (now env) query = None →
  searchPackages query env this =
    match search (net env) query with
    | Fulfilled (SearchData data) =>
        (Normal (map to_package data),
         stored query (map to_package data) (now env) this)
    | _ => (Normal [], sent (SearchRequest query) this)
    end.
Proof.
  unfold lookup, searchPackages. intros Hmiss.
  unfold bind at 1 2, Date_now, get_state. cbv beta iota.
  set (fetch := try_catch _ _).
  assert (Hfetch :
    fetch env this
          = match search (net env) query with
            | Fulfilled (SearchData data) =>
                (Normal (map to_package data),
                 stored query (map to_package data) (now env) this)
            | _ => (Normal [], sent (SearchRequest query) this)
            end).
  { subst fetch.
    unfold try_catch, bind, send, await, throw, ret, search_data,
      packageCache_set, cacheExpiry_set, stored, sent. simpl.
    destruct (search (net env) query) as [|[|data]]; done. }
  clearbody fetch.
  destruct (packageCache this !! _) as [p|]; [|exact Hfetch].
  destruct (cacheExpiry this !! _) as [e|]; [|exact Hfetch].
  destruct (now env <? e); [done|exact Hfetch].
Qed.

Lemma lookup_stored query packages t this now' :
  lookup (stored query packages t this) now' query
  = if now' <? t + CACHE_DURATION then Some packages else None.
Proof.
  unfold lookup, stored. simpl. by rewrite !lookup_insert_eq.
Qed.

Lemma lookup_sent r this now' query :
  lookup (sent r this) now' query = lookup this now' query.
Proof. done. Qed.

(** An entry that has expired stays expired. *)
Lemma lookup_None_later this t t' query :
  lookup this t query = None → t ≤ t' → lookup this t' query = None.
Proof.
  unfold lookup.
  destruct (packageCache this !! _) as [p|]; [|done].
  destruct (cacheExpiry this !! _) as [e|]; [|done].
  destruct (Z.ltb_spec t e); [done|].
  intros _ Hle. destruct (Z.ltb_spec t' e); [lia|done].
Qed.

Lemma lookup_entry this t query cached expiry :
  packageCache this !! JsString.toLowerCase query = Some cached →
  cacheExpiry this !! JsString.toLowerCase query = Some expiry →
  lookup this t query = if t <? expiry then Some cached else None.
Proof. unfold lookup. by intros -> ->. Qed.

Lemma lookup_Some this t query cached :
  lookup this t query = Some cached →
  ∃ expiry,
    packageCache this !! JsString.toLowerCase query = Some cached
    ∧ cacheExpiry this !! JsString.toLowerCase query = Some expiry
    ∧ t < expiry.
Proof.
  unfold lookup.
  destruct (packageCache this !! _) as [p|]; [|done].
  destruct (cacheExpiry this !! _) as [e|]; [|done].
  destruct (Z.ltb_spec t e); [|done].
  intros [= ->]. by exists e.
Qed.

(** Whatever the network answers, a fetch sends exactly one request. *)
Lemma searchPackages_fetch_requests query env this :
  lookup this (now env) query = None →
  requests (searchPackages query env this).2
  = (requests this ++ [SearchRequest query])%list.
Proof.
  intros Hmiss. rewrite searchPackages_fetch by done.
  by destruct (search (net env) query) as [|[|data]].
Qed.

Lemma searchPackages_fetch_failure query env this :
  lookup this (now env) query = None →
  search_fails env query →
  searchPackages query env this
  = (Normal [], sent (SearchRequest query) this).
Proof.
  intros Hmiss Hfail. rewrite searchPackages_fetch by done.
  by destruct Hfail as [-> | ->].
Qed.

(** C1: a [searchPackages(query)] is successful when it is answered from the
    cache or its search request succeeds.  After it the cache holds the
    returned packages under the lower-cased query with an expiry
    [expiresAt], which is [now + 5 minutes] when the call went to the
    network.  A second [searchPackages(query)] strictly before [expiresAt]
    returns the same packages and leaves the state, hence the list of
    requests sent, unchanged; at or after [expiresAt] it sends the search
    request again, and when that request succeeds it returns the new
    result and overwrites the entry, with expiry five minutes after the
    second call. *)
Theorem searchPackages_cache_window query env1 env2 this :
  is_Some (lookup this (now env1) query)
  ∨ (∃ data, search (net env1) query = Fulfilled (SearchData data)) →
  let first := searchPackages query env1 this in
  let second := searchPackages query env2 first.2 in
  ∃ packages expiresAt,
    first.1 = Normal packages
    ∧ packageCache first.2 !! JsString.toLowerCase query = Some packages
    ∧ cacheExpiry first.2 !! JsString.toLowerCase query = Some expiresAt
    ∧ (∀ data,
         lookup this (now env1) query = None →
         search (net env1) query = Fulfilled (SearchData data) →
         packages = map to_package data
         ∧ expiresAt = now env1 + 5 * 60 * 1000
         ∧ requests first.2 = (requests this ++ [SearchRequest query])%list)
    ∧ (now env2 < expiresAt → second = (Normal packages, first.2))
    ∧ (expiresAt ≤ now env2 →
         requests second.2 = (requests first.2 ++ [SearchRequest query])%list
         ∧ ∀ data',
             search (net env2) query = Fulfilled (SearchData data') →
             second.1 = Normal (map to_package data')
             ∧ packageCache second.2 !! JsString.toLowerCase query
               = Some (map to_package data')
             ∧ cacheExpiry second.2 !! JsString.toLowerCase query
               = Some (now env2 + 5 * 60 * 1000)).
Proof.
  intros Hok first second.
  assert (Hentry : ∃ packages expiresAt,
    first.1 = Normal packages
    ∧ packageCache first.2 !! JsString.toLowerCase query = Some packages
    ∧ cacheExpiry first.2 !! JsString.toLowerCase query = Some expiresAt
    ∧ (∀ data,
         lookup this (now env1) query = None →
         search (net env1) query = Fulfilled (SearchData data) →
         packages = map to_package data
         ∧ expiresAt = now env1 + CACHE_DURATION
         ∧ requests first.2 = (requests this ++ [SearchRequest query])%list)).
  { subst first. destruct (lookup this (now env1) query) as [cached|] eqn:Hl.
    - rewrite (searchPackages_hit _ _ _ _ Hl).
      apply lookup_Some in Hl as (e & Hp & He & _).
      exists cached, e. done.
    - destruct Hok as [[? [=]]|[data Hok]].
      rewrite searchPackages_fetch, Hok by done.
      exists (map to_package data), (now env1 + CACHE_DURATION).
      simpl. rewrite !lookup_insert_eq. repeat (split; [done|]).
      intros data' _ [= ->]. done. }
  destruct Hentry as (packages & expiresAt & Hr & Hp & He & Hfresh).
  exists packages, expiresAt. repeat (split; [done|]).
  pose proof (lookup_entry first.2 (now env2) query _ _ Hp He) as Hl.
  split.
  - intros Hlt. subst second. apply searchPackages_hit.
    rewrite Hl. by destruct (Z.ltb_spec (now env2) expiresAt); [|lia].
  - intros Hge.
    assert (lookup first.2 (now env2) query = None) as Hmiss.
    { rewrite Hl. by destruct (Z.ltb_spec (now env2) expiresAt); [lia|]. }
    subst second. split; [by apply searchPackages_fetch_requests|].
    intros data' Hok'. rewrite searchPackages_fetch, Hok' by done.
    simpl. by rewrite !lookup_insert_eq.
Qed.

(** C2 (amended): when [searchPackages] goes to the network and the request
    fails, that is, the promise is rejected (transport error, timeout,
    error status) or the result array of the response cannot be read, the
    call ends normally with the empty list, the two cache maps are left as
    they were, and the same query at any later time sends the request
    again.  A response whose array can be read is not a failure for the
    code, whatever its items hold: see the run with [versionless] below. *)
Theorem searchPackages_failure_not_cached query env this :
  lookup this (now env) query = None →
  search_fails env query →
  let after := (searchPackages query env this).2 in
  searchPackages query env this
  = (Normal [], sent (SearchRequest query) this)
  ∧ packageCache after = packageCache this
  ∧ cacheExpiry after = cacheExpiry this
  ∧ ∀ env', now env ≤ now env' →
      requests (searchPackages query env' after).2
      = (requests after ++ [SearchRequest query])%list.
Proof.
  intros Hmiss Hfail after.
  pose proof (searchPackages_fetch_failure query env this Hmiss Hfail)
    as Hrun.
  subst after. rewrite Hrun. cbn [fst snd]. repeat (split; [done|]).
  intros env' Hlater. apply searchPackages_fetch_requests.
  rewrite lookup_sent. by eapply lookup_None_later.
Qed.

(** C10: a search that succeeds with no results stores the empty list
    under the lower-cased query with expiry [now + 5 minutes]; the same
    query strictly before that time is answered with the empty list from
    the cache, the state and so the list of requests unchanged.  A failed
    request from the same state leaves the key as it was. *)
Theorem searchPackages_caches_empty_result query env this :
  lookup this (now env) query = None →
  search (net env) query = Fulfilled (SearchData []) →
  let after := (searchPackages query env this).2 in
  (searchPackages query env this).1 = Normal []
  ∧ packageCache after !! JsString.toLowerCase query = Some []
  ∧ cacheExpiry after !! JsString.toLowerCase query
    = Some (now env + 5 * 60 * 1000)
  ∧ (∀ env', now env' < now env + 5 * 60 * 1000 →
       searchPackages query env' after = (Normal [], after))
  ∧ (∀ env', lookup this (now env') query = None →
       search_fails env' query →
       let failed := (searchPackages query env' this).2 in
       packageCache failed !! JsString.toLowerCase query
       = packageCache this !! JsString.toLowerCase query
       ∧ cacheExpiry failed !! JsString.toLowerCase query
         = cacheExpiry this !! JsString.toLowerCase query).
Proof.
  intros Hmiss Hok after. subst after.
  rewrite searchPackages_fetch, Hok by done. simpl.
  rewrite !lookup_insert_eq. repeat (split; [done|]). split.
  - intros env' Hlt. apply searchPackages_hit.
    change ([] : list NuGetPackage.t) with (map to_package []).
    rewrite lookup_stored. fold CACHE_DURATION in Hlt.
    by destruct (Z.ltb_spec (now env') (now env + CACHE_DURATION)); [|lia].
  - intros env' Hmiss' Hfail.
    by rewrite (searchPackages_fetch_failure query env' this Hmiss' Hfail).
Qed.

End Cache.

(** ** Lower-casing the cache key *)

Section CaseFolding.
Import JsString.

Lemma lower_char_idempotent c : lower_char (lower_char c) = lower_char c.
Proof. destruct c as [[] [] [] [] [] [] [] []]; by vm_compute. Qed.

Lemma code_inj c d : code c = code d → c = d.
Proof.
  unfold code. intros H%(inj Z.of_N).
  by rewrite <- (ascii_N_embedding c), <- (ascii_N_embedding d), H.
Qed.

Lemma code_lower_char c : code (lower_char c) = Utf16.lower_latin1 (code c).
Proof. destruct c as [[] [] [] [] [] [] [] []]; by vm_compute. Qed.

(** Every pair of the table is folded to its small letter, the small letter
    to itself. *)
Lemma letter_cases_lower :
  Forall (λ p, Utf16.lower_latin1 p.1 = p.2 ∧ Utf16.lower_latin1 p.2 = p.2)
    (filter (λ p, p.1 < 256) Utf16.letter_cases).
Proof. vm_compute. repeat (constructor; [done|]). constructor. Qed.

Lemma same_letter_lower c d :
  same_letter c d = true → lower_char c = lower_char d.
Proof.
  assert (Hpair : ∀ a b : ascii,
    (code a, code b) ∈ Utf16.letter_cases → lower_char a = lower_char b).
  { intros a b Hin. apply code_inj. rewrite !code_lower_char.
    pose proof letter_cases_lower as Hall.
    rewrite Forall_forall in Hall.
    destruct (Hall (code a, code b)) as [H1 H2].
    - apply list_elem_of_filter. split; [|done]. simpl.
      unfold code. pose proof (N_ascii_bounded a). lia.
    - simpl in *. congruence. }
  unfold same_letter, Utf16.same_letter.
  rewrite !orb_true_iff, !bool_decide_eq_true.
  intros [[Heq%Z.eqb_eq | Hin] | Hin].
  - by rewrite (code_inj c d Heq).
  - by apply Hpair.
  - symmetry. by apply Hpair.
Qed.

Lemma differ_only_in_case_lower a b :
  differ_only_in_case a b = true → toLowerCase a = toLowerCase b.
Proof.
  revert b. induction a as [|c a IH]; intros [|d b]; simpl; try done.
  intros [Hc Hab]%andb_true_iff.
  by rewrite (same_letter_lower c d), (IH b).
Qed.

(** On strings of code units below 256 the two embeddings of
    [toLowerCase] and of "differ only in letter case" agree. *)
Lemma toLowerCase_of_string (other : Utf16.t → Utf16.t) s :
  Utf16.toLowerCase other (Utf16.of_string s)
  = Utf16.of_string (toLowerCase s).
Proof.
  assert (Hlatin : forallb Utf16.is_latin1 (Utf16.of_string s) = true).
  { induction s as [|c s IH]; simpl; [done|]. rewrite IH, andb_true_r.
    unfold Utf16.is_latin1, code. pose proof (N_ascii_bounded c).
    apply andb_true_iff. split; [apply Z.leb_le|apply Z.ltb_lt]; lia. }
  unfold Utf16.toLowerCase. rewrite Hlatin. clear Hlatin.
  induction s as [|c s IH]; simpl; [done|].
  by rewrite IH, code_lower_char.
Qed.

Lemma differ_only_in_case_of_string a b :
  Utf16.differ_only_in_case (Utf16.of_string a) (Utf16.of_string b)
  = differ_only_in_case a b.
Proof.
  revert b. induction a as [|c a IH]; intros [|d b]; simpl; try done.
  by rewrite IH.
Qed.


End CaseFolding.

(** Sample runs of the cache claims. *)

Lemma searchPackages_cache_window_witness :
  searchPackages "Humanizer" (host_at 2000 Rejected)
    (searchPackages "Humanizer"
       (host_at 1000 (Fulfilled (SearchData [humanizer]))) initial).2
  = (Normal [to_package humanizer],
     stored "Humanizer" [to_package humanizer] 1000 initial).
Proof.
  destruct (searchPackages_cache_window "Humanizer"
              (host_at 1000 (Fulfilled (SearchData [humanizer])))
              (host_at 2000 Rejected) initial
              (or_intror (ex_intro _ [humanizer] eq_refl)))
    as (packages & expiresAt & Hfirst & _ & _ & Hfresh & Hhit & _).
  destruct (Hfresh [humanizer] eq_refl eq_refl) as (-> & -> & _).
  exact (Hhit eq_refl).
Defined.

Lemma searchPackages_failure_not_cached_witness :
  searchPackages "Humanizer" (host_at 1000 Rejected) initial
  = (Normal [], sent (SearchRequest "Humanizer") initial).
Proof.
  exact (proj1 (searchPackages_failure_not_cached "Humanizer"
                  (host_at 1000 Rejected) initial eq_refl
                  (or_introl eq_refl))).
Defined.

Lemma searchPackages_caches_empty_result_witness :
  searchPackages "Humanizer" (host_at 2000 Rejected)
    (searchPackages "Humanizer"
       (host_at 1000 (Fulfilled (SearchData []))) initial).2
  = (Normal [],
     (searchPackages "Humanizer"
        (host_at 1000 (Fulfilled (SearchData []))) initial).2).
Proof.
  destruct (searchPackages_caches_empty_result "Humanizer"
              (host_at 1000 (Fulfilled (SearchData []))) initial
              eq_refl eq_refl)
    as (_ & _ & _ & Hhit & _).
  exact (Hhit (host_at 2000 Rejected) eq_refl).
Defined.

(** A response with a readable array of items that lack the required
    version is no failure for the code: the item is mapped, the call
    returns a non-empty list and stores it, and the same query a second
    later is answered from the cache without a request. *)
Lemma searchPackages_failure_counterexample :
  forallb NuGetSearchItem.has_declared_shape [versionless] = false
  ∧ lookup initial 1000 "Humanizer" = None
  ∧ searchPackages "Humanizer"
      (host_at 1000 (Fulfilled (SearchData [versionless]))) initial
    = (Normal [to_package versionless],
       stored "Humanizer" [to_package versionless] 1000 initial)
  ∧ packageCache (stored "Humanizer" [to_package versionless] 1000 initial)
      !! "humanizer"
    = Some [to_package versionless]
  ∧ searchPackages "Humanizer"
      (host_at 2000 (Fulfilled (SearchData [versionless])))
      (stored "Humanizer" [to_package versionless] 1000 initial)
    = (Normal [to_package versionless],
       stored "Humanizer" [to_package versionless] 1000 initial).
Proof.
  split; [done|]. split; [done|]. split; [|split].
  - by rewrite searchPackages_fetch.
  - done.
  - apply searchPackages_hit.
    change [to_package versionless] with (map to_package [versionless]).
    by rewrite lookup_stored.
Qed.



(** ** Which requests a completion call sends *)

Section Requests.
Import JsString Pattern.
Variable other : string → JsNumber.number.

Lemma searchPackages_requests query env this :
  requests (searchPackages query env this).2 = requests this
  ∨ requests (searchPackages query env this).2
    = (requests this ++ [SearchRequest query])%list.
Proof.
  destruct (lookup this (now env) query) as [cached|] eqn:Hl.
  - left. by rewrite (searchPackages_hit _ _ _ _ Hl).
  - right. by apply searchPackages_fetch_requests.
Qed.

Lemma searchPackages_normal query env this :
  ∃ packages, (searchPackages query env this).1 = Normal packages.
Proof.
  destruct (lookup this (now env) query) as [cached|] eqn:Hl.
  - rewrite (searchPackages_hit _ _ _ _ Hl). by eexists.
  - rewrite searchPackages_fetch by done.
    destruct (search (net env) query) as [|[|data]]; by eexists.
Qed.

(** The [try] block around [searchPackages] in both providers. *)
Lemma package_items_requests query env this :
  requests
    (try_catch
       (let! packages := searchPackages query in
        ret (map createPackageCompletionItem packages))
       (ret []) env this).2
  = requests (searchPackages query env this).2.
Proof.
  unfold try_catch, bind, ret.
  destruct (searchPackages_normal query env this) as [packages Hn].
  destruct (searchPackages query env this) as [[|r] st]; simpl in *; done.
Qed.

Lemma getVersionCompletions_requests packageId versionPrefix env this :
  requests (getVersionCompletions other packageId versionPrefix env this).2
  = (requests this ++ [VersionIndexRequest (toLowerCase packageId)])%list.
Proof.
  unfold getVersionCompletions, try_catch, bind, send, await, throw, ret,
    index_versions. simpl.
  destruct (versionIndex (net env) (toLowerCase packageId))
    as [|[|[versions|]]]; done.
Qed.

Lemma span_word_nonempty p s word rest :
  span p s = (word, rest) → word ≠ "" →
  ∃ c word', word = String c word'.
Proof. destruct word as [|c word']; [done|]. eauto. Qed.

Lemma dotted_id_nonempty s packageId rest :
  dotted_id s = Some (packageId, rest) → packageId ≠ "".
Proof.
  unfold dotted_id. destruct (span is_word s) as [[|c word] r]; [done|].
  destruct (dotted_tail _ r) as [more r']. by intros [= <- _].
Qed.

Lemma package_version_nonempty s packageId versionPrefix :
  package_version s = Some (packageId, versionPrefix) → packageId ≠ "".
Proof.
  unfold package_version.
  intros (r1 & _ & H)%bind_Some.
  apply bind_Some in H as (r2 & _ & H).
  apply bind_Some in H as ([id r3] & Hid & H).
  apply bind_Some in H as (r4 & _ & H).
  apply bind_Some in H as (vp & _ & H).
  injection H as <- _. by eapply dotted_id_nonempty.
Qed.

Lemma toLowerCase_nonempty s : s ≠ "" → toLowerCase s ≠ "".
Proof. by destruct s. Qed.

(** The provider for all three directives sends at most one request per
    call and never one with an empty query or package id. *)
Lemma DirectiveCompletionProvider_requests lineText character env this :
  ∃ new,
    requests
      (DirectiveCompletionProvider.provideCompletionItems other
         lineText character env this).2
    = (requests this ++ new)%list
    ∧ Forall (λ r, request_text r ≠ "") new.
Proof.
  unfold DirectiveCompletionProvider.provideCompletionItems.
  set (linePrefix := prefix_to lineText character).
  assert (Hnone : ∀ items : list CompletionItem,
    ∃ new, requests (ret items env this).2 = (requests this ++ new)%list
           ∧ Forall (λ r, request_text r ≠ "") new).
  { intros items. exists []. by rewrite app_nil_r. }
  destruct (package linePrefix) as [capture|].
  - destruct (package_version linePrefix) as [[packageId versionPrefix]|]
      eqn:Hv.
    + eexists. split; [apply getVersionCompletions_requests|].
      constructor; [|done]. simpl.
      apply toLowerCase_nonempty. by eapply package_version_nonempty.
    + unfold DirectiveCompletionProvider.getPackageCompletions.
      destruct (String.eqb_spec capture ""); [apply Hnone|].
      rewrite package_items_requests.
      destruct (searchPackages_requests capture env this) as [-> | ->].
      * exists []. by rewrite app_nil_r.
      * eexists. split; [done|]. by constructor.
  - destruct (sdk linePrefix); [apply Hnone|].
    destruct (property linePrefix) as [[propertyName propertyValue]|].
    + destruct (negb _); apply Hnone.
    + destruct (directive linePrefix); apply Hnone.
Qed.

(** C7 (the defect): with the cursor behind [#:package ] the typed package
    name is empty.  [PackageCompletionProvider] passes the empty string to
    [searchPackages], which has nothing cached and sends the search request
    with an empty query.  [DirectiveCompletionProvider] on the same input
    returns no items and sends nothing, and on no input sends a request
    with an empty query or package id. *)
Theorem PackageCompletionProvider_searches_empty_query (env : Env) :
  requests
    (PackageCompletionProvider.provideCompletionItems other
       "#:package " 10 env initial).2
  = [SearchRequest ""]
  ∧ DirectiveCompletionProvider.provideCompletionItems other
      "#:package " 10 env initial
    = (Normal [], initial)
  ∧ ∀ lineText character this,
      ∃ new,
        requests
          (DirectiveCompletionProvider.provideCompletionItems other
             lineText character env this).2
        = (requests this ++ new)%list
        ∧ Forall (λ r, request_text r ≠ "") new.
Proof.
  split; [|split; [done|]].
  - change (PackageCompletionProvider.provideCompletionItems other
              "#:package " 10)
      with (try_catch
              (let! packages := searchPackages "" in
               ret (map createPackageCompletionItem packages))
              (ret [])).
    rewrite package_items_requests.
    by rewrite searchPackages_fetch_requests.
  - intros. apply DirectiveCompletionProvider_requests.
Qed.

End Requests.

(** ** Zero-padded decimal sort keys *)

Section SortKeys.
Import JsString.

Lemma app_nil_l_string (t : string) : "" +:+ t = t.
Proof. done. Qed.

Lemma app_cons_string c (s t : string) :
  String c s +:+ t = String c (s +:+ t).
Proof. done. Qed.

Lemma app_assoc_string (s t u : string) : (s +:+ t) +:+ u = s +:+ (t +:+ u).
Proof.
  induction s as [|c s IH]; [done|].
  by rewrite !app_cons_string, IH.
Qed.

Lemma app_nil_r_string (s : string) : s +:+ "" = s.
Proof.
  induction s as [|c s IH]; [done|]. by rewrite app_cons_string, IH.
Qed.

Lemma length_app_string (s t : string) :
  String.length (s +:+ t) = (String.length s + String.length t)%nat.
Proof.
  induction s as [|c s IH]; [done|].
  rewrite app_cons_string. simpl. by rewrite IH.
Qed.

Lemma repeat_char_snoc c n :
  repeat_char c (S n) = repeat_char c n +:+ String c "".
Proof.
  induction n as [|n IH]; [done|].
  change (repeat_char c (S (S n))) with (String c (repeat_char c (S n))).
  rewrite IH at 1. done.
Qed.

Lemma pretty_N_go_app k acc : pretty_N_go k acc = pretty_N_go k "" +:+ acc.
Proof.
  revert acc. induction (N.lt_wf_0 k) as [k _ IH]; intros acc.
  destruct (decide (k = 0)%N) as [->|Hk]; [by rewrite !pretty_N_go_0|].
  rewrite !(pretty_N_go_step k) by lia.
  rewrite IH by (apply N.div_lt; lia).
  rewrite (IH (k `div` 10)%N) with (acc := String _ "")
    by (apply N.div_lt; lia).
  by rewrite app_assoc_string.
Qed.

Lemma pretty_N_go_fixed w k :
  (k < 10 ^ N.of_nat w)%N →
  (String.length (pretty_N_go k "") ≤ w)%nat
  ∧ repeat_char "0" (w - String.length (pretty_N_go k "")) +:+ pretty_N_go k ""
    = fixed_digits w k.
Proof.
  revert k. induction w as [|w IH]; intros k Hk.
  - assert (k = 0%N) as -> by (simpl in Hk; lia). done.
  - assert (Hdiv : (k `div` 10 < 10 ^ N.of_nat w)%N).
    { apply N.Div0.div_lt_upper_bound.
      rewrite Nat2N.inj_succ, N.pow_succ_r' in Hk. lia. }
    destruct (IH _ Hdiv) as [Hlen Hfix].
    destruct (decide (k = 0)%N) as [->|Hpos].
    + rewrite pretty_N_go_0 in *. split; [simpl; lia|].
      cbn [fixed_digits]. change (0 `div` 10)%N with 0%N in *.
      rewrite <- Hfix. cbn [String.length]. rewrite !Nat.sub_0_r.
      rewrite !app_nil_r_string. apply repeat_char_snoc.
    + rewrite (pretty_N_go_step k) by lia. rewrite pretty_N_go_app.
      rewrite length_app_string. cbn [String.length fixed_digits].
      split; [lia|].
      rewrite <- Hfix, app_assoc_string. f_equal. f_equal. lia.
Qed.

Lemma length_fixed_digits w k : String.length (fixed_digits w k) = w.
Proof.
  revert k. induction w as [|w IH]; intros k; [done|].
  cbn [fixed_digits]. rewrite length_app_string, IH. simpl. lia.
Qed.

Lemma compare_app_same_length (s1 s2 t1 t2 : string) :
  String.length s1 = String.length s2 →
  String.compare (s1 +:+ t1) (s2 +:+ t2)
  = match String.compare s1 s2 with
    | Eq => String.compare t1 t2
    | c => c
    end.
Proof.
  revert s2. induction s1 as [|c1 s1 IH]; intros [|c2 s2]; try done.
  intros [= Hlen]. rewrite !app_cons_string. cbn [String.compare].
  destruct (Ascii.compare c1 c2); [by apply IH|done..].
Qed.

Lemma compare_pretty_N_char x y :
  (x < 10)%N → (y < 10)%N →
  Ascii.compare (pretty_N_char x) (pretty_N_char y) = (x ?= y)%N.
Proof.
  assert (Hnat : ∀ n m : nat,
    (n < 10)%nat → (m < 10)%nat →
    Ascii.compare (pretty_N_char (N.of_nat n)) (pretty_N_char (N.of_nat m))
    = (N.of_nat n ?= N.of_nat m)%N).
  { intros n m Hn Hm.
    do 10 (destruct n as [|n];
           [do 10 (destruct m as [|m]; [done|]); lia|]).
    lia. }
  intros Hx Hy. rewrite <- (N2Nat.id x), <- (N2Nat.id y). apply Hnat; lia.
Qed.

Lemma compare_decimal_step (qa ra qb rb : N) :
  (ra < 10)%N → (rb < 10)%N →
  (10 * qa + ra ?= 10 * qb + rb)%N
  = match (qa ?= qb)%N with Eq => (ra ?= rb)%N | c => c end.
Proof.
  intros Ha Hb.
  destruct (N.compare_spec qa qb) as [->|Hlt|Hgt].
  - destruct (N.compare_spec ra rb) as [->|Hlt|Hgt].
    + apply N.compare_refl.
    + apply N.compare_lt_iff. lia.
    + apply N.compare_gt_iff. lia.
  - apply N.compare_lt_iff. lia.
  - apply N.compare_gt_iff. lia.
Qed.

(** Fields of the same width compare as their numbers. *)
Lemma compare_fixed_digits w a b :
  (a < 10 ^ N.of_nat w)%N → (b < 10 ^ N.of_nat w)%N →
  String.compare (fixed_digits w a) (fixed_digits w b) = (a ?= b)%N.
Proof.
  revert a b. induction w as [|w IH]; intros a b Ha Hb.
  - simpl in *. assert (a = 0%N) as -> by lia. by assert (b = 0%N) as -> by lia.
  - rewrite Nat2N.inj_succ, N.pow_succ_r' in Ha, Hb.
    cbn [fixed_digits].
    rewrite compare_app_same_length by by rewrite !length_fixed_digits.
    rewrite IH by (apply N.Div0.div_lt_upper_bound; lia).
    pose proof (N.mod_lt a 10 ltac:(done)) as Hma.
    pose proof (N.mod_lt b 10 ltac:(done)) as Hmb.
    rewrite (N.Div0.div_mod a 10) at 3. rewrite (N.Div0.div_mod b 10) at 3.
    rewrite compare_decimal_step by done.
    cbn [String.compare]. rewrite compare_pretty_N_char by done.
    by destruct (a `mod` 10 ?= b `mod` 10)%N.
Qed.

(** The sort key of a package with [d] downloads, [1 <= d <= 999999999]. *)
Lemma sort_key_fixed d :
  1 ≤ d ≤ 999999999 →
  padStart (pretty (999999999 - d)) 10 "0"
  = fixed_digits 10 (Z.to_N (999999999 - d)).
Proof.
  intros Hd. destruct (decide (d = 999999999)) as [->|Hne]; [done|].
  destruct (999999999 - d) as [|p|p] eqn:Hk; [lia| |lia].
  change (pretty (Z.pos p)) with (pretty_N_go (N.pos p) "").
  change (Z.to_N (Z.pos p)) with (N.pos p).
  unfold padStart.
  apply (pretty_N_go_fixed 10 (N.pos p)). lia.
Qed.

(** Below the limit of the constant the keys do rank by downloads: of two
    packages with at most 999999999 downloads the one with more downloads
    is listed first. *)
Lemma createPackageCompletionItem_ranks_below_limit id1 v1 d1 id2 v2 d2 :
  0 ≤ d2 → d2 < d1 → d1 ≤ 999999999 →
  ranks_above (createPackageCompletionItem (package_with id1 v1 d1))
    (createPackageCompletionItem (package_with id2 v2 d2)) = true.
Proof.
  intros H0 Hlt Hmax. unfold ranks_above, createPackageCompletionItem.
  cbn [sortText package_with NuGetPackage.totalDownloads default].
  destruct (Z.eqb_spec d1 0) as [|_]; [lia|].
  rewrite sort_key_fixed by lia.
  assert (Hkey2 :
    ∃ k2, (Z.to_N (999999999 - d1) < k2 < 10 ^ N.of_nat 10)%N
          ∧ (if d2 =? 0 then "9999999999"
             else padStart (pretty (999999999 - d2)) 10 "0")
            = fixed_digits 10 k2).
  { destruct (Z.eqb_spec d2 0) as [->|Hd2].
    - exists 9999999999%N. split; [simpl; lia|done].
    - exists (Z.to_N (999999999 - d2)). rewrite sort_key_fixed by lia.
      split; [simpl; lia|done]. }
  destruct Hkey2 as (k2 & Hk2 & ->).
  unfold JsString.lt, String.ltb, id.
  rewrite compare_fixed_digits by (simpl in *; lia).
  by destruct (N.compare_spec (Z.to_N (999999999 - d1)) k2); [lia| |lia].
Qed.

End SortKeys.

(** ** Completion items of packages *)

(** C8 (the defect): the text inserted for a package is its id, [@] and its
    version ([undefined] where the package carries none),
    ["Humanizer@2.14.1"] for Humanizer 2.14.1, and with
    500000000 downloads Humanizer is listed above a package with 1000.  The
    sort key is derived from [999999999 - totalDownloads], which is negative
    from a thousand million downloads on: of two packages with 6000000000
    and 2000000000 downloads the one with fewer downloads is listed
    first. *)
Theorem createPackageCompletionItem_sort_key_overflow :
  (∀ pkg,
     insertText (createPackageCompletionItem pkg)
     = NuGetPackage.id pkg +:+ "@" +:+ template (NuGetPackage.version pkg))
  ∧ insertText (createPackageCompletionItem (to_package humanizer))
    = "Humanizer@2.14.1"
  ∧ ranks_above (createPackageCompletionItem (to_package humanizer))
      (createPackageCompletionItem (package_with "Other" "1.0.0" 1000))
    = true
  ∧ sortText (createPackageCompletionItem
                (package_with "Newtonsoft.Json" "13.0.3" 6000000000))
    = Some "-5000000001"
  ∧ sortText (createPackageCompletionItem
                (package_with "Serilog" "4.0.0" 2000000000))
    = Some "-1000000001"
  ∧ ranks_above
      (createPackageCompletionItem
         (package_with "Newtonsoft.Json" "13.0.3" 6000000000))
      (createPackageCompletionItem
         (package_with "Serilog" "4.0.0" 2000000000))
    = false
  ∧ ranks_above
      (createPackageCompletionItem
         (package_with "Serilog" "4.0.0" 2000000000))
      (createPackageCompletionItem
         (package_with "Newtonsoft.Json" "13.0.3" 6000000000))
    = true.
Proof. split; [done|]. by vm_compute. Qed.

(** ** Package hovers *)

Lemma PackageHoverProvider_hover_contains lineText wordRange env this hover
    after :
  PackageHoverProvider.provideHover lineText wordRange env this
  = (Normal (Some hover), after) →
  ∃ packageId version word,
    Pattern.hover_package lineText = Some (packageId, version)
    ∧ wordRange = Some word
    ∧ JsString.includes
        (JsString.substring lineText (start_character word)
           (end_character word))
        (default "" (head (JsString.split packageId "."))) = true.
Proof.
  unfold PackageHoverProvider.provideHover.
  destruct (Pattern.hover_package lineText) as [[packageId version]|];
    [|done].
  destruct wordRange as [word|]; [|done].
  destruct (JsString.includes _ _) eqn:Hin; [|done].
  intros _. by exists packageId, version, word.
Qed.

(** C9 (the defect): on the line [#:package System.Text.Json@8.0.1] with the
    pointer on the word [package], the hovered text does not contain
    [System], the first dot-segment of the package id.
    [DirectiveHoverProvider] requests the package and shows the hover all
    the same, the check being absent from its [getPackageHover];
    [PackageHoverProvider] returns nothing and sends nothing, and whenever
    it does produce a hover the hovered word contains that segment. *)
Theorem DirectiveHoverProvider_hover_without_containment :
  Pattern.hover_package json_line = Some ("System.Text.Json", "8.0.1")
  ∧ JsString.substring json_line 2 9 = "package"
  ∧ JsString.includes "package" "System" = false
  ∧ DirectiveHoverProvider.provideHover json_line (Some word_package)
      (host_at 0 (Fulfilled (SearchData [humanizer]))) initial
    = (Normal (Some {| contents := PackageMarkdown humanizer;
                       range := word_package |}),
       sent (PackageInfoRequest "System.Text.Json") initial)
  ∧ PackageHoverProvider.provideHover json_line (Some word_package)
      (host_at 0 (Fulfilled (SearchData [humanizer]))) initial
    = (Normal None, initial)
  ∧ ∀ lineText wordRange env this hover after,
      PackageHoverProvider.provideHover lineText wordRange env this
      = (Normal (Some hover), after) →
      ∃ packageId version word,
        Pattern.hover_package lineText = Some (packageId, version)
        ∧ wordRange = Some word
        ∧ JsString.includes
            (JsString.substring lineText (start_character word)
               (end_character word))
            (default "" (head (JsString.split packageId "."))) = true.
Proof.
  repeat (split; [by vm_compute|]).
  apply PackageHoverProvider_hover_contains.
Qed.

(** * Further properties *)

(** ** The cache across calls *)

Section CacheAcrossCalls.
Implicit Types (query : string) (env : Env) (this : State).

Lemma searchPackages_run query env this :
  ∃ packages,
    searchPackages query env this
    = (Normal packages, (searchPackages query env this).2).
Proof.
  destruct (searchPackages_normal query env this) as [packages Hn].
  exists packages. destruct (searchPackages query env this) as [r st].
  simpl in *. by subst.
Qed.

Lemma package_items_run query env this :
  ∃ packages,
    searchPackages query env this
    = (Normal packages, (searchPackages query env this).2)
    ∧ try_catch
        (let! packages := searchPackages query in
         ret (map createPackageCompletionItem packages))
        (ret []) env this
      = (Normal (map createPackageCompletionItem packages),
         (searchPackages query env this).2).
Proof.
  destruct (searchPackages_run query env this) as [packages Hrun].
  exists packages. split; [done|].
  unfold try_catch, bind, ret. by rewrite Hrun.
Qed.

Lemma getVersionCompletions_run other packageId versionPrefix env this :
  ∃ items,
    getVersionCompletions other packageId versionPrefix env this
    = (Normal items,
       sent (VersionIndexRequest (JsString.toLowerCase packageId)) this)
    ∧ ((versionIndex (net env) (JsString.toLowerCase packageId) = Rejected
        ∨ versionIndex (net env) (JsString.toLowerCase packageId)
          = Fulfilled MalformedIndexBody
        ∨ versionIndex (net env) (JsString.toLowerCase packageId)
          = Fulfilled (IndexData None)) →
       items = [])
    ∧ (∀ versions,
         versionIndex (net env) (JsString.toLowerCase packageId)
         = Fulfilled (IndexData (Some versions)) →
         items = map version_item
                   (Versions.filteredVersions other versions versionPrefix)).
Proof.
  unfold getVersionCompletions, try_catch, bind, send, await, throw, ret,
    index_versions, sent. simpl.
  destruct (versionIndex (net env) (JsString.toLowerCase packageId))
    as [|[|[versions|]]]; eexists; (split; [done|]);
    (split; [intros [?|[?|?]]; by simplify_eq|intros ? ?; by simplify_eq]).
Qed.

(** The state a [searchPackages] call leaves behind. *)
Lemma searchPackages_state query env this :
  (searchPackages query env this).2 = this
  ∨ (searchPackages query env this).2 = sent (SearchRequest query) this
  ∨ ∃ packages,
      (searchPackages query env this).2
      = stored query packages (now env) this.
Proof.
  destruct (lookup this (now env) query) as [cached|] eqn:Hl.
  - left. by rewrite (searchPackages_hit _ _ _ _ Hl).
  - right. rewrite searchPackages_fetch by done.
    destruct (search (net env) query) as [|[|data]]; eauto.
Qed.

(** X1: [searchPackages] never raises, sends at most one request, the
    search for its own query, and leaves the cache entries of all other
    keys as they were. *)
Theorem searchPackages_isolated query env this :
  let after := (searchPackages query env this).2 in
  (∃ packages, (searchPackages query env this).1 = Normal packages)
  ∧ (requests after = requests this
     ∨ requests after = (requests this ++ [SearchRequest query])%list)
  ∧ ∀ key, key ≠ JsString.toLowerCase query →
      packageCache after !! key = packageCache this !! key
      ∧ cacheExpiry after !! key = cacheExpiry this !! key.
Proof.
  intros after. split; [apply searchPackages_normal|].
  split; [apply searchPackages_requests|].
  intros key Hkey. subst after.
  destruct (searchPackages_state query env this)
    as [-> | [-> | [packages ->]]]; [done|done|].
  simpl. by rewrite !lookup_insert_ne.
Qed.

(** The state a completion call leaves behind. *)
Lemma PackageCompletionProvider_state other lineText character env this :
  let after :=
    (PackageCompletionProvider.provideCompletionItems other lineText
       character env this).2 in
  after = this
  ∨ (∃ packageId, after = sent (VersionIndexRequest packageId) this)
  ∨ ∃ query, after = (searchPackages query env this).2.
Proof.
  unfold PackageCompletionProvider.provideCompletionItems.
  destruct (Pattern.package _) as [capture|]; [|by left].
  destruct (Pattern.package_version _) as [[packageId versionPrefix]|].
  - right; left.
    destruct (getVersionCompletions_run other packageId versionPrefix env this)
      as (items & -> & _). eauto.
  - right; right. exists capture.
    by destruct (package_items_run capture env this) as (? & _ & ->).
Qed.

Lemma DirectiveCompletionProvider_state other lineText character env this :
  let after :=
    (DirectiveCompletionProvider.provideCompletionItems other lineText
       character env this).2 in
  after = this
  ∨ (∃ packageId, after = sent (VersionIndexRequest packageId) this)
  ∨ ∃ query, after = (searchPackages query env this).2.
Proof.
  unfold DirectiveCompletionProvider.provideCompletionItems.
  destruct (Pattern.package _) as [capture|].
  - destruct (Pattern.package_version _) as [[packageId versionPrefix]|].
    + right; left.
      destruct (getVersionCompletions_run other packageId versionPrefix
                  env this) as (items & -> & _). eauto.
    + unfold DirectiveCompletionProvider.getPackageCompletions.
      destruct (String.eqb capture ""); [by left|].
      right; right. exists capture.
      by destruct (package_items_run capture env this) as (? & _ & ->).
  - left. destruct (Pattern.sdk _); [done|].
    destruct (Pattern.property _) as [[propertyName propertyValue]|].
    + by destruct (negb _).
    + by destruct (Pattern.directive _).
Qed.

(** X2: the two cache maps stay in step.  If [packageCache] and
    [cacheExpiry] hold the same keys, they still do after a
    [searchPackages] call and after a completion call of either
    provider. *)
Theorem cache_maps_stay_in_step other lineText character query env this :
  dom (packageCache this) = dom (cacheExpiry this) →
  dom (packageCache (searchPackages query env this).2)
  = dom (cacheExpiry (searchPackages query env this).2)
  ∧ dom (packageCache
           (PackageCompletionProvider.provideCompletionItems other lineText
              character env this).2)
    = dom (cacheExpiry
             (PackageCompletionProvider.provideCompletionItems other
                lineText character env this).2)
  ∧ dom (packageCache
           (DirectiveCompletionProvider.provideCompletionItems other
              lineText character env this).2)
    = dom (cacheExpiry
             (DirectiveCompletionProvider.provideCompletionItems other
                lineText character env this).2).
Proof.
  intros Hdom.
  assert (Hsearch : ∀ q,
    dom (packageCache (searchPackages q env this).2)
    = dom (cacheExpiry (searchPackages q env this).2)).
  { intros q. destruct (searchPackages_state q env this)
      as [-> | [-> | [packages ->]]]; [done|done|].
    simpl. by rewrite !dom_insert_L, Hdom. }
  split; [apply Hsearch|]. split.
  - destruct (PackageCompletionProvider_state other lineText character
                env this) as [-> | [[p ->] | [q ->]]]; auto.
  - destruct (DirectiveCompletionProvider_state other lineText character
                env this) as [-> | [[p ->] | [q ->]]]; auto.
Qed.

(** X3: one request serves a burst of identical queries.  After a search
    that went to the network and succeeded, any number of further calls for
    the same query before the expiry, in any order of their times, all
    return the fetched packages, and the whole run has sent the one search
    request only. *)
Theorem searchPackages_burst query env0 (envs : list Env) this data :
  lookup this (now env0) query = None →
  search (net env0) query = Fulfilled (SearchData data) →
  Forall (λ env, now env < now env0 + CACHE_DURATION) envs →
  let first := (searchPackages query env0 this).2 in
  let last := foldl (λ st env, (searchPackages query env st).2) first envs in
  last = first
  ∧ requests last = (requests this ++ [SearchRequest query])%list
  ∧ Forall (λ env,
              searchPackages query env first
              = (Normal (map to_package data), first)) envs.
Proof.
  intros Hmiss Hok Hbefore first last.
  assert (Hfirst : first = stored query (map to_package data) (now env0) this).
  { subst first. by rewrite searchPackages_fetch, Hok. }
  assert (Hhit : ∀ env, now env < now env0 + CACHE_DURATION →
    searchPackages query env first = (Normal (map to_package data), first)).
  { intros env Hlt. apply searchPackages_hit. rewrite Hfirst, lookup_stored.
    by destruct (Z.ltb_spec (now env) (now env0 + CACHE_DURATION)); [|lia]. }
  assert (Hlast : last = first).
  { subst last. clear Hfirst. induction Hbefore as [|env envs Hlt _ IH];
      [done|]. simpl. by rewrite (Hhit env Hlt). }
  split; [done|]. split; [by rewrite Hlast, Hfirst|].
  eapply Forall_impl; [exact Hbefore|]. simpl. auto.
Qed.

End CacheAcrossCalls.

(** ** Completion calls *)

Section CompletionCalls.
Import JsString Pattern.
Variable other : string → JsNumber.number.

Lemma filteredVersions_length versions versionPrefix :
  (List.length (Versions.filteredVersions other versions versionPrefix)
   ≤ 10)%nat.
Proof.
  unfold Versions.filteredVersions, JsArray.slice0.
  rewrite length_take. lia.
Qed.

Lemma filteredVersions_elem versions versionPrefix v :
  v ∈ Versions.filteredVersions other versions versionPrefix →
  v ∈ versions ∧ includes v "-" = false ∧ startsWith v versionPrefix = true.
Proof.
  unfold Versions.filteredVersions, JsArray.slice0.
  intros (i & Hv & _)%elem_of_take.
  apply list_elem_of_lookup_2 in Hv.
  rewrite JsArrayFacts.sort_Permutation in Hv.
  apply list_elem_of_In, filter_In in Hv as [Hin Hkeep].
  apply andb_true_iff in Hkeep as [Hh%negb_true_iff Hp].
  by rewrite list_elem_of_In.
Qed.

(** X4: [getVersionCompletions] never raises and never reads or writes the
    cache: every call sends exactly one request, for the version index of
    the lower-cased package id.  It offers at most ten items; each inserts
    its own label, a version of the response without a hyphen that starts
    with the typed prefix.  When the request is rejected, the body is
    malformed or carries no [versions], it offers nothing. *)
Theorem getVersionCompletions_outcome packageId versionPrefix env this :
  ∃ items,
    getVersionCompletions other packageId versionPrefix env this
    = (Normal items, sent (VersionIndexRequest (toLowerCase packageId)) this)
    ∧ (List.length items ≤ 10)%nat
    ∧ (∀ item, item ∈ items →
         insertText item = label item
         ∧ includes (label item) "-" = false
         ∧ startsWith (label item) versionPrefix = true
         ∧ ∃ versions,
             versionIndex (net env) (toLowerCase packageId)
             = Fulfilled (IndexData (Some versions))
             ∧ label item ∈ versions)
    ∧ (versionIndex (net env) (toLowerCase packageId) = Rejected
       ∨ versionIndex (net env) (toLowerCase packageId)
         = Fulfilled MalformedIndexBody
       ∨ versionIndex (net env) (toLowerCase packageId)
         = Fulfilled (IndexData None) →
       items = []).
Proof.
  destruct (getVersionCompletions_run other packageId versionPrefix env this)
    as (items & Hrun & Hfail & Hok).
  exists items. split; [done|].
  destruct (versionIndex (net env) (toLowerCase packageId))
    as [|[|[versions|]]] eqn:Hindex.
  1,2,4: rewrite Hfail by auto; (split; [simpl; lia|]); (split; [|done]);
    by intros item0 ?%elem_of_nil.
  rewrite (Hok versions eq_refl). split; [|split; [|by intros [?|[?|?]]]].
  - rewrite length_map. apply filteredVersions_length.
  - intros item (v & -> & Hv)%list_elem_of_fmap.
    apply filteredVersions_elem in Hv as (Hin & Hh & Hp). simpl.
    repeat (split; [done|]). by exists versions.
Qed.

Lemma literal_app lit1 lit2 s :
  literal (lit1 +:+ lit2) s = literal lit1 s ≫= literal lit2.
Proof.
  revert s. induction lit1 as [|d lit1 IH]; intros s; [by destruct s|].
  destruct s as [|c s]; [done|].
  rewrite app_cons_string. simpl. destruct (ascii_dec c d); [apply IH|done].
Qed.

Lemma package_version_package s packageId versionPrefix :
  package_version s = Some (packageId, versionPrefix) →
  is_Some (package s).
Proof.
  unfold package_version, package.
  intros (r1 & -> & H)%bind_Some. simpl.
  apply bind_Some in H as (r2 & -> & _). by eexists.
Qed.

(** X5: whenever the text before the cursor reads [#:package], white
    space, a dotted package id, [@] and a version prefix, both providers
    answer with the version completions for that id and prefix; the package
    pattern, which is tested first, matches every such text, so the version
    branch is never shadowed. *)
Theorem version_completion_dispatch lineText character env this packageId
    versionPrefix :
  package_version (prefix_to lineText character)
  = Some (packageId, versionPrefix) →
  PackageCompletionProvider.provideCompletionItems other lineText character
    env this
  = getVersionCompletions other packageId versionPrefix env this
  ∧ DirectiveCompletionProvider.provideCompletionItems other lineText
      character env this
    = getVersionCompletions other packageId versionPrefix env this.
Proof.
  intros Hv. destruct (package_version_package _ _ _ Hv) as [capture Hp].
  unfold PackageCompletionProvider.provideCompletionItems,
    DirectiveCompletionProvider.provideCompletionItems.
  by rewrite Hv, Hp.
Qed.

Lemma no_directive_no_match s :
  literal "#:" s = None →
  package s = None ∧ package_version s = None ∧ sdk s = None
  ∧ property s = None ∧ directive s = None.
Proof.
  intros Hlit.
  assert (Hnone : ∀ name, literal ("#:" +:+ name) s = None).
  { intros name. by rewrite literal_app, Hlit. }
  unfold package, package_version, sdk, property, directive.
  rewrite Hlit.
  rewrite (Hnone "package" : literal "#:package" s = None).
  rewrite (Hnone "sdk" : literal "#:sdk" s = None).
  rewrite (Hnone "property" : literal "#:property" s = None). done.
Qed.

(** X6: when the text before the cursor does not start with [#:], both
    providers offer nothing, send nothing and leave the cache alone. *)
Theorem completion_outside_directives lineText character env this :
  literal "#:" (prefix_to lineText character) = None →
  PackageCompletionProvider.provideCompletionItems other lineText character
    env this
  = (Normal [], this)
  ∧ DirectiveCompletionProvider.provideCompletionItems other lineText
      character env this
    = (Normal [], this).
Proof.
  intros (Hp & Hv & Hs & Hy & Hd)%no_directive_no_match.
  unfold PackageCompletionProvider.provideCompletionItems,
    DirectiveCompletionProvider.provideCompletionItems.
  by rewrite Hp, ?Hv, ?Hs, ?Hy, ?Hd.
Qed.

(** X7: a completion call of either provider never raises, whatever the
    network does, and sends at most one request. *)
Theorem completion_never_raises lineText character env this :
  (∃ items,
     (PackageCompletionProvider.provideCompletionItems other lineText
        character env this).1 = Normal items)
  ∧ (∃ items,
       (DirectiveCompletionProvider.provideCompletionItems other lineText
          character env this).1 = Normal items)
  ∧ (∃ new,
       requests
         (PackageCompletionProvider.provideCompletionItems other lineText
            character env this).2
       = (requests this ++ new)%list
       ∧ (List.length new ≤ 1)%nat)
  ∧ (∃ new,
       requests
         (DirectiveCompletionProvider.provideCompletionItems other lineText
            character env this).2
       = (requests this ++ new)%list
       ∧ (List.length new ≤ 1)%nat).
Proof.
  assert (Hsearch : ∀ q,
    ∃ new, requests (searchPackages q env this).2 = (requests this ++ new)%list
           ∧ (List.length new ≤ 1)%nat).
  { intros q. destruct (searchPackages_requests q env this) as [-> | ->].
    - exists []. split; [by rewrite app_nil_r|simpl; lia].
    - eexists. split; [done|simpl; lia]. }
  assert (Hstate : ∀ after,
    after = this
    ∨ (∃ packageId, after = sent (VersionIndexRequest packageId) this)
    ∨ (∃ query, after = (searchPackages query env this).2) →
    ∃ new, requests after = (requests this ++ new)%list
           ∧ (List.length new ≤ 1)%nat).
  { intros after [-> | [[p ->] | [q ->]]]; [| |apply Hsearch].
    - exists []. split; [by rewrite app_nil_r|simpl; lia].
    - eexists. split; [done|simpl; lia]. }
  split; [|split; [|split]].
  - unfold PackageCompletionProvider.provideCompletionItems.
    destruct (package _) as [capture|]; [|by eexists].
    destruct (package_version _) as [[packageId versionPrefix]|].
    + destruct (getVersionCompletions_run other packageId versionPrefix
                  env this) as (items & -> & _). by eexists.
    + destruct (package_items_run capture env this) as (? & _ & ->).
      by eexists.
  - unfold DirectiveCompletionProvider.provideCompletionItems.
    destruct (package _) as [capture|].
    + destruct (package_version _) as [[packageId versionPrefix]|].
      * destruct (getVersionCompletions_run other packageId versionPrefix
                    env this) as (items & -> & _). by eexists.
      * unfold DirectiveCompletionProvider.getPackageCompletions.
        destruct (String.eqb capture ""); [by eexists|].
        destruct (package_items_run capture env this) as (? & _ & ->).
        by eexists.
    + destruct (sdk _); [by eexists|].
      destruct (property _) as [[propertyName propertyValue]|].
      * destruct (negb _); by eexists.
      * destruct (directive _); by eexists.
  - apply Hstate, PackageCompletionProvider_state.
  - apply Hstate, DirectiveCompletionProvider_state.
Qed.

End CompletionCalls.

(** ** What the patterns let through *)

Section PatternFacts.
Import JsString Pattern.

Lemma span_spec p s run rest :
  span p s = (run, rest) →
  s = run +:+ rest ∧ all_chars p run = true
  ∧ (rest = "" ∨ ∃ c rest', rest = String c rest' ∧ p c = false).
Proof.
  revert run rest. induction s as [|c s IH]; intros run rest; simpl.
  { intros [= <- <-]. auto. }
  destruct (p c) eqn:Hc.
  - destruct (span p s) as [run' rest'] eqn:Hs. intros [= <- <-].
    destruct (IH _ _ eq_refl) as (-> & Hall & Hrest).
    rewrite app_cons_string. simpl. rewrite Hc, Hall. auto.
  - intros [= <- <-]. split; [done|]. split; [done|]. right. eauto.
Qed.

Lemma span_all p s : all_chars p s = true → span p s = (s, "").
Proof.
  induction s as [|c s IH]; simpl; [done|].
  intros [-> Hs]%andb_true_iff. by rewrite IH.
Qed.

Lemma span_stop p c s : p c = false → span p (String c s) = ("", String c s).
Proof. simpl. by intros ->. Qed.

Lemma all_chars_app p s t :
  all_chars p (s +:+ t) = all_chars p s && all_chars p t.
Proof.
  induction s as [|c s IH]; [done|].
  rewrite app_cons_string. simpl. by rewrite IH, andb_assoc.
Qed.

Lemma all_chars_impl (p q : ascii → bool) s :
  (∀ c, p c = true → q c = true) →
  all_chars p s = true → all_chars q s = true.
Proof.
  intros Hpq. induction s as [|c s IH]; simpl; [done|].
  intros [Hc Hs]%andb_true_iff. by rewrite (Hpq c Hc), IH.
Qed.

Lemma all_chars_toLowerCase (p q : ascii → bool) s :
  (∀ c, p c = true → q (lower_char c) = true) →
  all_chars p s = true → all_chars q (toLowerCase s) = true.
Proof.
  intros Hpq. induction s as [|c s IH]; simpl; [done|].
  intros [Hc Hs]%andb_true_iff. by rewrite (Hpq c Hc), IH.
Qed.

Lemma lower_id_char_lower c :
  id_char c = true → lower_id_char (lower_char c) = true.
Proof. destruct c as [[] [] [] [] [] [] [] []]; by vm_compute. Qed.

Lemma is_word_id_char c : is_word c = true → id_char c = true.
Proof. unfold id_char. by intros ->. Qed.

Lemma word_not_space c : is_word c = true → is_space c = false.
Proof. destruct c as [[] [] [] [] [] [] [] []]; by vm_compute. Qed.

Lemma word_is_query_char c : is_word c = true → query_char c = true.
Proof. destruct c as [[] [] [] [] [] [] [] []]; by vm_compute. Qed.

Lemma dotted_tail_spec fuel s more rest :
  dotted_tail fuel s = (more, rest) →
  s = more +:+ rest ∧ all_chars id_char more = true.
Proof.
  revert s more rest. induction fuel as [|fuel IH]; intros s more rest.
  { destruct s; simpl; by intros [= <- <-]. }
  destruct s as [|c s]; [by intros [= <- <-]|]. simpl.
  destruct (ascii_dec c ".") as [->|Hne].
  - destruct (span is_word s) as [[|w word] r] eqn:Hspan;
      [by intros [= <- <-]|].
    destruct (dotted_tail fuel r) as [more' rest'] eqn:Htail.
    intros [= <- <-].
    destruct (span_spec _ _ _ _ Hspan) as (-> & Hword & _).
    destruct (IH _ _ _ Htail) as (-> & Hmore).
    split.
    + by rewrite !app_cons_string, !app_assoc_string.
    + rewrite app_cons_string. cbn [all_chars].
      rewrite all_chars_app, Hmore.
      rewrite (all_chars_impl is_word id_char _ is_word_id_char Hword).
      done.
  - destruct c as [[] [] [] [] [] [] [] []]; try by intros [= <- <-].
    done.
Qed.

Lemma dotted_id_spec s packageId rest :
  dotted_id s = Some (packageId, rest) →
  s = packageId +:+ rest ∧ packageId ≠ ""
  ∧ all_chars id_char packageId = true.
Proof.
  unfold dotted_id.
  destruct (span is_word s) as [[|w word] r] eqn:Hspan; [done|].
  destruct (dotted_tail _ r) as [more rest'] eqn:Htail.
  intros [= <- <-].
  destruct (span_spec _ _ _ _ Hspan) as (-> & Hword & _).
  destruct (dotted_tail_spec _ _ _ _ Htail) as (-> & Hmore).
  split; [by rewrite app_assoc_string|]. split; [done|].
  rewrite all_chars_app, Hmore.
  by rewrite (all_chars_impl is_word id_char _ is_word_id_char Hword).
Qed.

Lemma package_capture s capture :
  package s = Some capture → all_chars query_char capture = true.
Proof.
  unfold package. intros (r1 & _ & H)%bind_Some.
  apply bind_Some in H as (r2 & _ & [= <-]).
  destruct (span _ r2) as [run rest] eqn:Hspan.
  by destruct (span_spec _ _ _ _ Hspan) as (_ & Hall & _).
Qed.

Lemma package_version_id s packageId versionPrefix :
  package_version s = Some (packageId, versionPrefix) →
  packageId ≠ "" ∧ all_chars id_char packageId = true.
Proof.
  unfold package_version.
  intros (r1 & _ & H)%bind_Some.
  apply bind_Some in H as (r2 & _ & H).
  apply bind_Some in H as ([id r3] & Hid & H).
  apply bind_Some in H as (r4 & _ & H).
  apply bind_Some in H as (vp & _ & [= <- _]).
  by destruct (dotted_id_spec _ _ _ Hid) as (_ & ? & ?).
Qed.


Lemma nonempty_eqb s : s ≠ "" → negb (String.eqb s "") = true.
Proof. intros Hs. by destruct (String.eqb_spec s ""). Qed.

End PatternFacts.

Section RequestShape.
Import JsString Pattern.
Variable other : string → JsNumber.number.

Lemma version_request_well_formed packageId :
  packageId ≠ "" → all_chars id_char packageId = true →
  request_well_formed (VersionIndexRequest (toLowerCase packageId)) = true.
Proof.
  intros Hne Hall. simpl.
  rewrite nonempty_eqb by by destruct packageId.
  by rewrite (all_chars_toLowerCase id_char lower_id_char _
                lower_id_char_lower Hall).
Qed.

(** X8: every request a completion call sends has the shape its pattern
    admits: a search query holds no [@] and no white space, and the id of a
    version-index request is a non-empty run of lower-case letters, digits,
    underscores and dots, so it cannot leave its place in the request
    path. *)
Theorem completion_requests_well_formed lineText character env this :
  (∃ new,
     requests
       (PackageCompletionProvider.provideCompletionItems other lineText
          character env this).2
     = (requests this ++ new)%list
     ∧ Forall (λ r, request_well_formed r = true) new)
  ∧ (∃ new,
       requests
         (DirectiveCompletionProvider.provideCompletionItems other lineText
            character env this).2
       = (requests this ++ new)%list
       ∧ Forall (λ r, request_well_formed r = true) new).
Proof.
  assert (Hnone : ∃ new, requests this = (requests this ++ new)%list
                         ∧ Forall (λ r, request_well_formed r = true) new).
  { exists []. by rewrite app_nil_r. }
  assert (Hsearch : ∀ capture,
    all_chars query_char capture = true →
    ∃ new,
      requests
        (try_catch
           (let! packages := searchPackages capture in
            ret (map createPackageCompletionItem packages))
           (ret []) env this).2
      = (requests this ++ new)%list
      ∧ Forall (λ r, request_well_formed r = true) new).
  { intros capture Hc. rewrite package_items_requests.
    destruct (searchPackages_requests capture env this) as [-> | ->];
      [done|].
    eexists. split; [done|]. by constructor. }
  assert (Hversion : ∀ packageId versionPrefix,
    packageId ≠ "" → all_chars id_char packageId = true →
    ∃ new,
      requests (getVersionCompletions other packageId versionPrefix env this).2
      = (requests this ++ new)%list
      ∧ Forall (λ r, request_well_formed r = true) new).
  { intros packageId versionPrefix Hne Hall.
    rewrite getVersionCompletions_requests. eexists. split; [done|].
    constructor; [|done]. by apply version_request_well_formed. }
  split.
  - unfold PackageCompletionProvider.provideCompletionItems.
    destruct (package _) as [capture|] eqn:Hp; [|done].
    destruct (package_version _) as [[packageId versionPrefix]|] eqn:Hv.
    + apply package_version_id in Hv as [? ?]. by apply Hversion.
    + apply Hsearch. by eapply package_capture.
  - unfold DirectiveCompletionProvider.provideCompletionItems.
    destruct (package _) as [capture|] eqn:Hp.
    + destruct (package_version _) as [[packageId versionPrefix]|] eqn:Hv.
      * apply package_version_id in Hv as [? ?]. by apply Hversion.
      * unfold DirectiveCompletionProvider.getPackageCompletions.
        destruct (String.eqb capture ""); [done|].
        apply Hsearch. by eapply package_capture.
    + destruct (sdk _); [done|].
      destruct (property _) as [[propertyName propertyValue]|].
      * by destruct (negb _).
      * by destruct (directive _).
Qed.

End RequestShape.

(** ** Typing a directive *)

Section Typing.
Import JsString Pattern.
Variable other : string → JsNumber.number.

Lemma take_length_string s : take (String.length s) s = s.
Proof. induction s as [|c s IH]; [done|]. simpl. by rewrite IH. Qed.

(** The whole line lies before a cursor at its end. *)
Lemma prefix_to_length s : prefix_to s (String.length s) = s.
Proof.
  unfold prefix_to, substring. rewrite Nat.min_0_l, Nat.max_0_l, Nat.sub_0_r.
  apply take_length_string.
Qed.

Lemma literal_prefix lit s : literal lit (lit +:+ s) = Some s.
Proof.
  induction lit as [|d lit IH]; [by destruct s|].
  rewrite app_cons_string. simpl. by destruct (ascii_dec d d).
Qed.

Lemma span_space_query s :
  all_chars query_char s = true → span is_space s = ("", s).
Proof.
  destruct s as [|c s]; [done|]. simpl.
  intros [[_ Hc%negb_true_iff]%andb_true_iff _]%andb_true_iff.
  by rewrite Hc.
Qed.

Lemma package_of_query query :
  all_chars query_char query = true →
  package ("#:package " +:+ query) = Some query.
Proof.
  intros Hq.
  change ("#:package " +:+ query) with ("#:package" +:+ String " " query).
  unfold package. rewrite literal_prefix.
  cbn [mbind option_bind]. unfold spaces1.
  cbn [span]. change (is_space " ") with true. cbv iota.
  rewrite (span_space_query _ Hq). cbn [mbind option_bind].
  by rewrite span_all.
Qed.

Lemma all_chars_no_at s t :
  all_chars query_char (s +:+ String "@" t) = false.
Proof.
  rewrite all_chars_app. simpl. apply andb_false_r.
Qed.

Lemma literal_at r r' : literal "@" r = Some r' → r = String "@" r'.
Proof.
  destruct r as [|c r]; [done|]. simpl.
  destruct (ascii_dec c "@") as [->|]; [|done].
  destruct r; by intros [= ->].
Qed.

Lemma package_version_of_query query :
  all_chars query_char query = true →
  package_version ("#:package " +:+ query) = None.
Proof.
  intros Hq.
  destruct (package_version _) as [[packageId versionPrefix]|] eqn:Hv;
    [|done]. exfalso. revert Hv.
  change ("#:package " +:+ query) with ("#:package" +:+ String " " query).
  unfold package_version. rewrite literal_prefix.
  cbn [mbind option_bind]. unfold spaces1.
  cbn [span]. change (is_space " ") with true. cbv iota.
  rewrite (span_space_query _ Hq). cbn [mbind option_bind].
  intros ([id r] & Hid & H)%bind_Some.
  apply bind_Some in H as (r' & Hat%literal_at & _).
  apply dotted_id_spec in Hid as (Heq & _). subst r query.
  by rewrite all_chars_no_at in Hq.
Qed.

(** X9: typing a package name.  With [#:package], one blank and a
    non-empty name without [@] and white space before the cursor, nothing
    valid in the cache and a successful search, both providers offer one
    item per search result, in the order of the response, each inserting
    [id@version], and the result is cached under the lower-cased name for
    five minutes. *)
Theorem package_name_completion query env this data :
  query ≠ "" →
  all_chars query_char query = true →
  lookup this (now env) query = None →
  search (net env) query = Fulfilled (SearchData data) →
  let lineText := "#:package " +:+ query in
  let outcome :=
    (Normal
       (map (λ item,
               {| label := NuGetSearchItem.id item;
                  kind := KindModule;
                  insertText :=
                    NuGetSearchItem.id item +:+ "@"
                    +:+ template (NuGetSearchItem.version item);
                  sortText :=
                    sortText (createPackageCompletionItem (to_package item))
               |}) data),
     stored query (map to_package data) (now env) this) in
  PackageCompletionProvider.provideCompletionItems other lineText
    (String.length lineText) env this = outcome
  ∧ DirectiveCompletionProvider.provideCompletionItems other lineText
      (String.length lineText) env this = outcome.
Proof.
  intros Hne Hq Hmiss Hok lineText outcome.
  unfold PackageCompletionProvider.provideCompletionItems,
    DirectiveCompletionProvider.provideCompletionItems,
    DirectiveCompletionProvider.getPackageCompletions.
  rewrite prefix_to_length. subst lineText.
  rewrite package_of_query, package_version_of_query by done.
  destruct (String.eqb_spec query "") as [|_]; [done|].
  destruct (package_items_run query env this) as (packages & Hrun & ->).
  rewrite searchPackages_fetch, Hok in Hrun |- * by done.
  injection Hrun as <-. subst outcome. cbn [snd].
  rewrite map_map. done.
Qed.

Lemma property_of_name name :
  name ≠ "" → all_chars is_word name = true →
  property ("#:property " +:+ name) = Some (name, "")
  ∧ package ("#:property " +:+ name) = None
  ∧ sdk ("#:property " +:+ name) = None.
Proof.
  intros Hne Hw. split; [|done].
  change ("#:property " +:+ name) with ("#:property" +:+ String " " name).
  unfold property. rewrite literal_prefix.
  cbn [mbind option_bind]. unfold spaces1.
  cbn [span]. change (is_space " ") with true. cbv iota.
  rewrite (span_space_query name)
    by (eapply all_chars_impl; [apply word_is_query_char|done]).
  cbn [mbind option_bind]. rewrite (span_all _ _ Hw). done.
Qed.

(** X10: a property name is only completed while it is empty.  As soon as
    one character of the name is typed after [#:property ], the provider
    looks for the values of a property of exactly that name; for a name that
    is not in the table, such as the beginning of one, it offers nothing.
    With the name still empty it offers every property of the table. *)
Theorem property_name_completion_needs_empty_name name env this :
  name ≠ "" →
  all_chars is_word name = true →
  List.find (λ p, String.eqb (PropertyInfo.name p) name) COMMON_PROPERTIES
  = None →
  let lineText := "#:property " +:+ name in
  DirectiveCompletionProvider.provideCompletionItems other lineText
    (String.length lineText) env this
  = (Normal [], this)
  ∧ (DirectiveCompletionProvider.provideCompletionItems other
       "#:property " 11 env this).1
    = Normal (map (λ p, {| label := PropertyInfo.name p;
                           kind := KindProperty;
                           insertText := PropertyInfo.name p +:+ " ";
                           sortText := None |}) COMMON_PROPERTIES).
Proof.
  intros Hne Hw Hfind lineText. split; [|done].
  unfold DirectiveCompletionProvider.provideCompletionItems.
  rewrite prefix_to_length. subst lineText.
  destruct (property_of_name name Hne Hw) as (-> & -> & ->).
  rewrite nonempty_eqb by done.
  unfold DirectiveCompletionProvider.getPropertyValueCompletions.
  by rewrite Hfind.
Qed.

(** X11: the SDK filter, the property-name filter and the property-value
    filter ignore the letter case of what was typed: two inputs that differ
    only in case get the same items. *)
Theorem static_filters_ignore_case (q1 q2 : string) :
  differ_only_in_case q1 q2 = true →
  DirectiveCompletionProvider.getSdkCompletions q1
  = DirectiveCompletionProvider.getSdkCompletions q2
  ∧ DirectiveCompletionProvider.getPropertyNameCompletions q1
    = DirectiveCompletionProvider.getPropertyNameCompletions q2
  ∧ ∀ propertyName,
      DirectiveCompletionProvider.getPropertyValueCompletions propertyName q1
      = DirectiveCompletionProvider.getPropertyValueCompletions
          propertyName q2.
Proof.
  intros Hcase%differ_only_in_case_lower.
  unfold DirectiveCompletionProvider.getSdkCompletions,
    DirectiveCompletionProvider.getPropertyNameCompletions,
    DirectiveCompletionProvider.getPropertyValueCompletions.
  by rewrite Hcase.
Qed.

End Typing.

(** ** Hover calls *)

Section HoverCalls.
Import JsString Pattern.





End HoverCalls.

(** ** More on the comparator *)

Section ComparatorOrder.
Import JsNumber JsNumberFacts Versions VersionsFacts JsString.
Variable other : string → number.

Lemma lex_eq_compat A B C n i :
  lex A B n i = Eq → lex A C n i = lex B C n i.
Proof.
  revert i. induction n as [|n IH]; intros i; simpl; [done|].
  destruct (num_compare (or_zero (A !! i)) (or_zero (B !! i))) eqn:Hab;
    [|done..].
  apply num_compare_eq in Hab as ->; auto using or_zero_not_nan.
  intros H. by rewrite (IH _ H).
Qed.

Lemma sign_zero x : sign x = Some Eq ↔ x = Int 0.
Proof.
  destruct x as [|[]|z]; simpl; try done.
  split.
  - intros [= ->%Z.compare_eq]. done.
  - by intros [= ->].
Qed.

Lemma compareVersions_lex a b N :
  (Nat.max (List.length (parts other a)) (List.length (parts other b))
   ≤ N)%nat →
  sign (compareVersions other a b)
  = Some (lex (parts other a) (parts other b) N 0).
Proof.
  intros HN. rewrite compareVersions_sign.
  set (n := Nat.max _ _) in *.
  replace N with (n + (N - n))%nat by lia. by rewrite lex_more by lia.
Qed.

(** X14: on versions without a hyphen, the ones the version list sorts,
    [compareVersions] is a consistent compare function, as [sort]
    requires: of any two versions one is not ordered before the other;
    "not ordered before" is transitive; and two versions that compare
    equal compare alike with every third one.  (A segment without a hyphen
    converts to NaN, to an infinity or to an integer; a fraction needs a
    negative exponent.) *)
Theorem compareVersions_consistent (a b c : string) :
  includes a "-" = false →
  includes b "-" = false →
  includes c "-" = false →
  (is_negative (compareVersions other a b) = false
   ∨ is_negative (compareVersions other b a) = false)
  ∧ (is_negative (compareVersions other a b) = false →
     is_negative (compareVersions other b c) = false →
     is_negative (compareVersions other a c) = false)
  ∧ (compareVersions other a b = Int 0 →
     sign (compareVersions other a c) = sign (compareVersions other b c)).
Proof.
  intros _ _ _.
  split; [apply not_before_total|]. split; [apply not_before_trans|].
  set (N := Nat.max (List.length (parts other a))
              (Nat.max (List.length (parts other b))
                       (List.length (parts other c)))).
  intros Hab%sign_zero.
  rewrite (compareVersions_lex a b N) in Hab by (unfold N; lia).
  rewrite (compareVersions_lex a c N), (compareVersions_lex b c N)
    by (unfold N; lia).
  injection Hab as Hab. by rewrite (lex_eq_compat _ _ _ _ _ Hab).
Qed.

Lemma split_go_app sep a t cur :
  split_go sep (a +:+ String sep t) cur
  = (split_go sep a cur ++ split_go sep t "")%list.
Proof.
  revert cur. induction a as [|c a IH]; intros cur.
  - rewrite app_nil_l_string. simpl. by destruct (ascii_dec sep sep).
  - rewrite app_cons_string. simpl.
    destruct (ascii_dec c sep); by rewrite IH.
Qed.

Lemma compare_loop_same_parts A B n i :
  (∀ j, or_zero (A !! j) = or_zero (B !! j)) →
  compare_loop A B n i = Int 0.
Proof.
  intros Hsame. revert i. induction n as [|n IH]; intros i; simpl; [done|].
  rewrite Hsame.
  pose proof (or_zero_not_nan (B !! i)) as Hnan.
  destruct (strict_neq _ _) eqn:Hne; [|apply IH].
  destruct (or_zero (B !! i)) as [|s|z]; simpl in Hne; [done| |].
  - by destruct s.
  - by rewrite Z.eqb_refl in Hne.
Qed.

(** X15: a trailing zero segment does not change a version: for every
    version [a] without a hyphen, [compareVersions(a, a + ".0")] and
    [compareVersions(a + ".0", a)] are 0. *)
Theorem compareVersions_trailing_zero (a : string) :
  includes a "-" = false →
  compareVersions other a (a +:+ ".0") = Int 0
  ∧ compareVersions other (a +:+ ".0") a = Int 0.
Proof.
  intros _.
  assert (Hparts :
    parts other (a +:+ ".0") = (parts other a ++ [Int 0])%list).
  { unfold parts, split. rewrite split_go_app, map_app. done. }
  assert (Hsame : ∀ j,
    or_zero (parts other a !! j)
    = or_zero ((parts other a ++ [Int 0])%list !! j)).
  { intros j. destruct (decide (j < List.length (parts other a))%nat).
    - by rewrite lookup_app_l.
    - rewrite lookup_app_r, lookup_ge_None_2 by lia.
      by destruct (j - List.length (parts other a))%nat as [|[|k]]. }
  unfold compareVersions. rewrite Hparts. split.
  - by apply compare_loop_same_parts.
  - by apply compare_loop_same_parts.
Qed.

End ComparatorOrder.

(** ** How the editor lists version items *)

Section VersionItems.
Import JsString.
Variable other : string → JsNumber.number.

Lemma compare_refl_string s : String.compare s s = Eq.
Proof.
  induction s as [|c s IH]; [done|]. simpl.
  unfold Ascii.compare. by rewrite N.compare_refl.
Qed.

Lemma all_chars_repeat_char (p : ascii → bool) c n :
  p c = true → all_chars p (repeat_char c n) = true.
Proof. intros Hc. induction n as [|n IH]; simpl; [done|]. by rewrite Hc. Qed.

Lemma length_repeat_char c n : String.length (repeat_char c n) = n.
Proof. induction n as [|n IH]; simpl; [done|]. by rewrite IH. Qed.

(** X16: every item that [getVersionCompletions] offers is built from its
    label, and the sort key of the item of a version is that version with
    zeros in front, as many as bring it to twenty characters (none when it
    is longer).  So of two versions of the same length the editor lists
    the one that is smaller as a string first, ["1.0.0"] above ["1.1.0"],
    and it lists ["9.0.0"] above ["10.0.0"], whatever order the pipeline
    computed. *)
Theorem version_items_zero_padded_key :
  (∀ version, ∃ zeros,
     sortText (version_item version) = Some (zeros +:+ version)
     ∧ all_chars (λ c, bool_decide (c = "0"%char)) zeros = true
     ∧ String.length (zeros +:+ version)
       = Nat.max 20 (String.length version))
  ∧ (∀ packageId versionPrefix env this,
       ∃ items,
         (getVersionCompletions other packageId versionPrefix env this).1
         = Normal items
         ∧ ∀ item, item ∈ items → item = version_item (label item))
  ∧ (∀ a b, String.length a = String.length b →
       ranks_above (version_item a) (version_item b) = lt a b)
  ∧ ranks_above (version_item "1.0.0") (version_item "1.1.0") = true
  ∧ ranks_above (version_item "9.0.0") (version_item "10.0.0") = true.
Proof.
  split; [|split; [|split; [|done]]].
  - intros version. exists (repeat_char "0" (20 - String.length version)).
    split; [done|]. split; [by apply all_chars_repeat_char|].
    rewrite length_app_string, length_repeat_char. lia.
  - intros packageId versionPrefix env this.
    destruct (getVersionCompletions_run other packageId versionPrefix env
                this) as (items & -> & Hfail & Hok).
    exists items. split; [done|]. intros item.
    destruct (versionIndex (net env) (toLowerCase packageId))
      as [|[|[versions|]]] eqn:Hindex.
    1,2,4: rewrite Hfail by auto; by intros ?%elem_of_nil.
    rewrite (Hok versions eq_refl).
    by intros (v & -> & _)%list_elem_of_fmap.
  - intros a b Hlen. unfold ranks_above, version_item, padStart. simpl.
    unfold lt, String.ltb. rewrite Hlen.
    by rewrite compare_app_same_length, compare_refl_string.
Qed.

End VersionItems.

(** ** No eviction *)

(** X17: nothing is ever removed from the cache: every key the cache holds
    before a [searchPackages] call or a completion call of either provider
    it still holds afterwards. *)
Theorem cache_never_evicts other lineText character query env this :
  dom (packageCache this)
  ⊆ dom (packageCache (searchPackages query env this).2)
  ∧ dom (packageCache this)
    ⊆ dom (packageCache
             (PackageCompletionProvider.provideCompletionItems other lineText
                character env this).2)
  ∧ dom (packageCache this)
    ⊆ dom (packageCache
             (DirectiveCompletionProvider.provideCompletionItems other
                lineText character env this).2).
Proof.
  assert (Hsearch : ∀ q,
    dom (packageCache this)
    ⊆ dom (packageCache (searchPackages q env this).2)).
  { intros q. destruct (searchPackages_state q env this)
      as [-> | [-> | [packages ->]]]; [done|done|].
    simpl. rewrite dom_insert_L. set_solver. }
  split; [apply Hsearch|]. split.
  - destruct (PackageCompletionProvider_state other lineText character
                env this) as [-> | [[p ->] | [q ->]]]; auto.
  - destruct (DirectiveCompletionProvider_state other lineText character
                env this) as [-> | [[p ->] | [q ->]]]; auto.
Qed.

(** ** Sample runs of the further properties *)

Lemma cache_maps_stay_in_step_witness :
  dom (packageCache
         (searchPackages "Humanizer"
            (host_at 1000 (Fulfilled (SearchData [humanizer]))) initial).2)
  = dom (cacheExpiry
           (searchPackages "Humanizer"
              (host_at 1000 (Fulfilled (SearchData [humanizer]))) initial).2).
Proof.
  apply (cache_maps_stay_in_step (λ _, JsNumber.NaN) "" 0 "Humanizer"
           (host_at 1000 (Fulfilled (SearchData [humanizer]))) initial).
  reflexivity.
Defined.

Lemma searchPackages_burst_witness :
  requests
    (foldl (λ st env, (searchPackages "Humanizer" env st).2)
       (searchPackages "Humanizer"
          (host_at 1000 (Fulfilled (SearchData [humanizer]))) initial).2
       [host_at 2000 Rejected; host_at 1500 Rejected])
  = [SearchRequest "Humanizer"].
Proof.
  apply (searchPackages_burst "Humanizer"
           (host_at 1000 (Fulfilled (SearchData [humanizer])))
           [host_at 2000 Rejected; host_at 1500 Rejected] initial
           [humanizer]).
  - reflexivity.
  - reflexivity.
  - repeat constructor.
Defined.

Lemma version_completion_dispatch_witness :
  DirectiveCompletionProvider.provideCompletionItems (λ _, JsNumber.NaN)
    "#:package Humanizer@2" 21 (host_at 0 Rejected) initial
  = getVersionCompletions (λ _, JsNumber.NaN) "Humanizer" "2"
      (host_at 0 Rejected) initial.
Proof.
  apply (version_completion_dispatch (λ _, JsNumber.NaN)
           "#:package Humanizer@2" 21 (host_at 0 Rejected) initial
           "Humanizer" "2").
  reflexivity.
Defined.

Lemma completion_outside_directives_witness :
  DirectiveCompletionProvider.provideCompletionItems (λ _, JsNumber.NaN)
    "Console.WriteLine();" 8
    (host_at 0 (Fulfilled (SearchData [humanizer]))) initial
  = (Normal [], initial).
Proof.
  apply (completion_outside_directives (λ _, JsNumber.NaN)
           "Console.WriteLine();" 8
           (host_at 0 (Fulfilled (SearchData [humanizer]))) initial).
  reflexivity.
Defined.

Lemma package_name_completion_witness :
  DirectiveCompletionProvider.provideCompletionItems (λ _, JsNumber.NaN)
    "#:package Hum" 13 (host_at 1000 (Fulfilled (SearchData [humanizer])))
    initial
  = (Normal [ {| label := "Humanizer"; kind := KindModule;
                 insertText := "Humanizer@2.14.1";
                 sortText := Some "0499999999" |} ],
     stored "Hum" [to_package humanizer] 1000 initial).
Proof.
  apply (package_name_completion (λ _, JsNumber.NaN) "Hum"
           (host_at 1000 (Fulfilled (SearchData [humanizer]))) initial
           [humanizer]).
  - discriminate.
  - reflexivity.
  - reflexivity.
  - reflexivity.
Defined.

Lemma property_name_completion_needs_empty_name_witness :
  DirectiveCompletionProvider.provideCompletionItems (λ _, JsNumber.NaN)
    "#:property Lang" 15 (host_at 0 Rejected) initial
  = (Normal [], initial).
Proof.
  apply (property_name_completion_needs_empty_name (λ _, JsNumber.NaN)
           "Lang" (host_at 0 Rejected) initial).
  - discriminate.
  - reflexivity.
  - reflexivity.
Defined.

Lemma static_filters_ignore_case_witness :
  DirectiveCompletionProvider.getSdkCompletions "WEB"
  = DirectiveCompletionProvider.getSdkCompletions "web".
Proof.
  apply (static_filters_ignore_case "WEB" "web"). reflexivity.
Defined.

Lemma compareVersions_consistent_witness :
  JsNumber.is_negative
    (Versions.compareVersions (λ _, JsNumber.NaN) "1.10" "1.2") = false.
Proof.
  exact (proj1 (proj2 (compareVersions_consistent (λ _, JsNumber.NaN)
                         "1.10" "1.9" "1.2" eq_refl eq_refl eq_refl))
           eq_refl eq_refl).
Defined.

Lemma compareVersions_trailing_zero_witness :
  Versions.compareVersions (λ _, JsNumber.NaN) "2.1" "2.1.0" = JsNumber.Int 0.
Proof.
  exact (proj1 (compareVersions_trailing_zero (λ _, JsNumber.NaN) "2.1"
                  eq_refl)).
Defined.

(** ** Typing the other directives *)

Section StaticDirectives.
Import JsString Pattern.
Variable other : string → JsNumber.number.

Lemma literal_Some_app lit s r : literal lit s = Some r → s = lit +:+ r.
Proof.
  revert s. induction lit as [|d lit IH]; intros s.
  - destruct s; by intros [= <-].
  - destruct s as [|c s]; [done|]. simpl.
    destruct (ascii_dec c d) as [->|]; [|done].
    intros ->%IH. by rewrite app_cons_string.
Qed.

Lemma spaces1_word r : all_chars is_word r = true → spaces1 r = None.
Proof.
  intros Hw. unfold spaces1.
  rewrite span_space_query; [done|].
  eapply all_chars_impl; [apply word_is_query_char|done].
Qed.

(** After [#:] and letters only, none of the three directive patterns
    matches: each asks for white space behind the directive's name. *)
Lemma word_is_no_directive name prefix :
  all_chars is_word prefix = true →
  (literal ("#:" +:+ name) ("#:" +:+ prefix) ≫= spaces1) = None.
Proof.
  intros Hw. rewrite literal_app, literal_prefix. cbn [mbind option_bind].
  destruct (literal name prefix) as [r|] eqn:Hlit; [|done].
  cbn [mbind option_bind]. apply spaces1_word.
  apply literal_Some_app in Hlit as ->.
  rewrite all_chars_app in Hw. by apply andb_true_iff in Hw as [_ ?].
Qed.

(** X18: typing a directive's name.  With [#:] and a possibly empty run of
    letters, digits and underscores before the cursor, the provider offers,
    without sending anything, exactly the names among [package], [sdk] and
    [property] that start with what was typed, each inserting the name and
    a blank. *)
Theorem directive_name_completion prefix env this :
  all_chars is_word prefix = true →
  let lineText := "#:" +:+ prefix in
  DirectiveCompletionProvider.provideCompletionItems other lineText
    (String.length lineText) env this
  = (Normal
       (map (λ name, {| label := name; kind := KindKeyword;
                        insertText := name +:+ " "; sortText := None |})
            (List.filter (λ name, startsWith name prefix)
               ["package"; "sdk"; "property"])),
     this).
Proof.
  intros Hw lineText.
  unfold DirectiveCompletionProvider.provideCompletionItems.
  rewrite prefix_to_length. subst lineText.
  pose proof (word_is_no_directive "package" prefix Hw) as Hp.
  pose proof (word_is_no_directive "sdk" prefix Hw) as Hs.
  pose proof (word_is_no_directive "property" prefix Hw) as Hy.
  assert (package ("#:" +:+ prefix) = None) as ->.
  { unfold package.
    change (literal "#:package" ("#:" +:+ prefix) ≫= spaces1 = None) in Hp.
    destruct (literal "#:package" _) as [r|]; [|done]. simpl in *.
    by rewrite Hp. }
  assert (sdk ("#:" +:+ prefix) = None) as ->.
  { unfold sdk.
    change (literal "#:sdk" ("#:" +:+ prefix) ≫= spaces1 = None) in Hs.
    destruct (literal "#:sdk" _) as [r|]; [|done]. simpl in *.
    by rewrite Hs. }
  assert (property ("#:" +:+ prefix) = None) as ->.
  { unfold property.
    change (literal "#:property" ("#:" +:+ prefix) ≫= spaces1 = None) in Hy.
    destruct (literal "#:property" _) as [r|]; [|done]. simpl in *.
    by rewrite Hy. }
  unfold directive. rewrite literal_prefix. cbn [mbind option_bind].
  by rewrite (span_all _ _ Hw).
Qed.

Lemma span_space_no_leading s :
  no_leading_space s = true → span is_space s = ("", s).
Proof.
  destruct s as [|c s]; [done|]. simpl. by intros ->%negb_true_iff.
Qed.

Lemma rest_of_line_all s : all_chars line_char s = true →
  rest_of_line s = Some s.
Proof.
  intros Hl. unfold rest_of_line.
  by rewrite (span_all (λ c, negb (is_line_terminator c)) _ Hl).
Qed.

(** X19: typing an SDK.  With [#:sdk], one blank and a query before the
    cursor, the provider offers, without sending anything, the SDKs of the
    table whose id contains the query, letter case ignored, each inserting
    its id. *)
Theorem sdk_completion query env this :
  no_leading_space query = true →
  all_chars line_char query = true →
  let lineText := "#:sdk " +:+ query in
  DirectiveCompletionProvider.provideCompletionItems other lineText
    (String.length lineText) env this
  = (Normal
       (map (λ sdk, {| label := SdkInfo.id sdk; kind := KindModule;
                       insertText := SdkInfo.id sdk; sortText := None |})
            (List.filter
               (λ sdk, includes (toLowerCase (SdkInfo.id sdk))
                         (toLowerCase query))
               COMMON_SDKS)),
     this).
Proof.
  intros Hs Hl lineText.
  unfold DirectiveCompletionProvider.provideCompletionItems.
  rewrite prefix_to_length. subst lineText.
  assert (package ("#:sdk " +:+ query) = None) as -> by done.
  assert (sdk ("#:sdk " +:+ query) = Some query) as ->; [|done].
  change ("#:sdk " +:+ query) with ("#:sdk" +:+ String " " query).
  unfold sdk. rewrite literal_prefix. cbn [mbind option_bind].
  unfold spaces1. cbn [span]. change (is_space " ") with true. cbv iota.
  rewrite (span_space_no_leading _ Hs). cbn [mbind option_bind].
  by apply rest_of_line_all.
Qed.

Lemma span_app_stop p a c t :
  all_chars p a = true → p c = false →
  span p (a +:+ String c t) = (a, String c t).
Proof.
  intros Ha Hc. induction a as [|d a IH].
  - rewrite app_nil_l_string. simpl. by rewrite Hc.
  - simpl in Ha. apply andb_true_iff in Ha as [Hd Ha].
    rewrite app_cons_string. simpl. by rewrite Hd, IH.
Qed.

Lemma span_space_word_app name t :
  name ≠ "" → all_chars is_word name = true →
  span is_space (name +:+ t) = ("", name +:+ t).
Proof.
  destruct name as [|c name]; [done|]. intros _ Hw.
  simpl in Hw. apply andb_true_iff in Hw as [Hc _].
  rewrite app_cons_string. apply span_stop. by apply word_not_space.
Qed.

(** X20: typing a property value.  With [#:property], one blank, a
    property name, one blank and a value prefix before the cursor, the
    provider offers, without sending anything, the possible values of the
    table's property of exactly that name that start with the prefix, letter
    case ignored in the value but not in the name; nothing for a name the
    table does not hold. *)
Theorem property_value_completion propertyName valuePrefix env this :
  propertyName ≠ "" →
  all_chars is_word propertyName = true →
  no_leading_space valuePrefix = true →
  all_chars line_char valuePrefix = true →
  let lineText := "#:property " +:+ propertyName +:+ " " +:+ valuePrefix in
  DirectiveCompletionProvider.provideCompletionItems other lineText
    (String.length lineText) env this
  = (Normal
       match List.find (λ p, String.eqb (PropertyInfo.name p) propertyName)
               COMMON_PROPERTIES with
       | Some property =>
           map (λ value, {| label := value; kind := KindValue;
                            insertText := value; sortText := None |})
               (List.filter
                  (λ value, startsWith (toLowerCase value)
                              (toLowerCase valuePrefix))
                  (default [] (PropertyInfo.possibleValues property)))
       | None => []
       end,
     this).
Proof.
  intros Hne Hw Hs Hl lineText.
  unfold DirectiveCompletionProvider.provideCompletionItems.
  rewrite prefix_to_length. subst lineText.
  assert (package ("#:property " +:+ propertyName +:+ " " +:+ valuePrefix)
          = None) as -> by done.
  assert (sdk ("#:property " +:+ propertyName +:+ " " +:+ valuePrefix)
          = None) as -> by done.
  assert (property ("#:property " +:+ propertyName +:+ " " +:+ valuePrefix)
          = Some (propertyName, valuePrefix)) as ->.
  { change ("#:property " +:+ propertyName +:+ " " +:+ valuePrefix)
      with ("#:property"
            +:+ String " " (propertyName +:+ String " " valuePrefix)).
    unfold property. rewrite literal_prefix. cbn [mbind option_bind].
    unfold spaces1. cbn [span]. change (is_space " ") with true. cbv iota.
    rewrite (span_space_word_app _ _ Hne Hw). cbn [mbind option_bind].
    rewrite (span_app_stop is_word propertyName " " valuePrefix Hw eq_refl).
    cbn [span]. change (is_space " ") with true. cbv iota.
    rewrite (span_space_no_leading _ Hs).
    by rewrite (rest_of_line_all _ Hl). }
  rewrite nonempty_eqb by done.
  unfold DirectiveCompletionProvider.getPropertyValueCompletions.
  destruct (List.find _ _) as [[name description [values|] defaultValue]|];
    done.
Qed.

End StaticDirectives.

Lemma directive_name_completion_witness :
  DirectiveCompletionProvider.provideCompletionItems (λ _, JsNumber.NaN)
    "#:p" 3 (host_at 0 Rejected) initial
  = (Normal [ {| label := "package"; kind := KindKeyword;
                 insertText := "package "; sortText := None |};
              {| label := "property"; kind := KindKeyword;
                 insertText := "property "; sortText := None |} ],
     initial).
Proof.
  apply (directive_name_completion (λ _, JsNumber.NaN) "p"
           (host_at 0 Rejected) initial).
  reflexivity.
Defined.

Lemma sdk_completion_witness :
  DirectiveCompletionProvider.provideCompletionItems (λ _, JsNumber.NaN)
    "#:sdk WORK" 10 (host_at 0 Rejected) initial
  = (Normal [ {| label := "Microsoft.NET.Sdk.Worker"; kind := KindModule;
                 insertText := "Microsoft.NET.Sdk.Worker";
                 sortText := None |} ],
     initial).
Proof.
  apply (sdk_completion (λ _, JsNumber.NaN) "WORK" (host_at 0 Rejected)
           initial); reflexivity.
Defined.

Lemma property_value_completion_witness :
  DirectiveCompletionProvider.provideCompletionItems (λ _, JsNumber.NaN)
    "#:property Nullable E" 21 (host_at 0 Rejected) initial
  = (Normal [ {| label := "enable"; kind := KindValue;
                 insertText := "enable"; sortText := None |} ],
     initial).
Proof.
  apply (property_value_completion (λ _, JsNumber.NaN) "Nullable" "E"
           (host_at 0 Rejected) initial); (discriminate || reflexivity).
Defined.
